(** * YSpreadsheet: the cell core (cell.h, cell.cpp, formula.cpp)

    A shallow embedding of [Cell] and of the [Formula] wrapper around the
    parsed expression.  A [Cell*] is the position the sheet stores the cell
    at, the sheet is a finite map from positions to cells, and every member
    function is a computation in a state-and-exception monad over the sheet.
    The recursive traversals ([CheckCircularDependencyImpl], [DestroyCache],
    the evaluation of a formula through the cells it reads) take a fuel
    argument that bounds the call depth. *)

From stdpp Require Import base option list gmap sets strings relations sorting.
From Stdlib Require Import ZArith Lia Ascii String.

#[local] Set Warnings "-clear-no-such-hyp".

Local Open Scope Z_scope.
Local Open Scope string_scope.

(** ** Positions, values, errors *)

(** Modelled from the spec: the [Position] of common.h, a (row, column)
    coordinate; its validity predicate is [IsValid] of the collaborators
    below.  A [Cell*] is modelled by the position the sheet stores the cell
    at, so two pointers are equal when the positions are. *)
Record Position := mkPosition { row : Z; col : Z }.

#[global] Instance Position_eq_dec : EqDecision Position.
Proof. solve_decision. Defined.

#[global] Instance Position_countable : Countable Position :=
  inj_countable' (fun p => (row p, col p)) (fun rc => mkPosition rc.1 rc.2)
    (fun p => match p with mkPosition _ _ => eq_refl end).

(** formula.cpp: the three cases of [FormulaError::Category], and
    [FormulaError::ToString]. *)
Inductive FormulaError := RefErr | ValueErr | Div0Err.

#[global] Instance FormulaError_eq_dec : EqDecision FormulaError.
Proof. solve_decision. Defined.

Definition FormulaError_ToString (fe : FormulaError) : string :=
  match fe with
  | RefErr => "#REF!"
  | ValueErr => "#VALUE!"
  | Div0Err => "#DIV/0!"
  end.

(** The C++ exceptions that cross the functions of cell.cpp and formula.cpp. *)
Inductive exn :=
| logic_error (what : string)
| out_of_range
| bad_variant_access
| FormulaException (what : string)
| CircularDependencyException (what : string)
| ThrownFormulaError (fe : FormulaError).

(** The result of a call: a value, a thrown exception, or the call depth
    exceeded the fuel. *)
Inductive outcome (A : Type) :=
| Ret (a : A)
| Throw (e : exn)
| OutOfFuel.
Arguments Ret {A} a.
Arguments Throw {A} e.
Arguments OutOfFuel {A}.

(** Modelled from the spec: what [FormulaAST::Execute], of FormulaAST.h,
    does with the resolver it is given.  It asks for the value of a cell and
    goes on with the answer, or finishes with a number, or throws a
    [FormulaError] of its own (a division by zero).  An exception of the
    resolver leaves [Execute] uncaught. *)
Inductive Exec (N : Type) :=
| Done (r : N)
| Fail (fe : FormulaError)
| Ask (pos : Position) (k : N -> Exec N).
Arguments Done {N} r.
Arguments Fail {N} fe.
Arguments Ask {N} pos k.

(** ** The collaborators (common.h, FormulaAST.h) *)

(** Modelled from the spec: the declarations of common.h and FormulaAST.h
    that the two source files use, taken as an interface.  [number] stands
    for [double], [IsValid] for the validity predicate of a position,
    [ParseFormulaAST] returns [None] where the parser throws, [GetCells] is
    the raw list of the positions of an expression, in no particular order
    and with repetitions, [Execute] is the run of the expression,
    [PrintFormula] its printer.  [iss_extract] is [iss >> result] followed
    by [iss.eof()] on a stream over the text: [None] when the extraction
    fails, otherwise the number read and the end-of-stream flag. *)
Class Collaborators := {
  number : Type;
  zero : number;
  IsValid : Position -> bool;
  FormulaAST : Type;
  ParseFormulaAST : string -> option FormulaAST;
  GetCells : FormulaAST -> list Position;
  Execute : FormulaAST -> Exec number;
  PrintFormula : FormulaAST -> string;
  iss_extract : string -> option (number * bool)
}.

(** Modelled from the spec: the formula sentinel of common.h, the first
    character of formula input. *)
Definition FORMULA_SIGN : ascii := "="%char.

(** Modelled from the spec: the escape sentinel of common.h, the first
    character of escaped text. *)
Definition ESCAPE_SIGN : ascii := "'"%char.

Section Core.
Context `{Collab : Collaborators}.

(** [CellInterface::Value = std::variant<std::string, double, FormulaError>]. *)
Inductive Value :=
| VString (s : string)
| VDouble (d : number)
| VError (fe : FormulaError).

(** [FormulaInterface::Value = std::variant<double, FormulaError>]. *)
Inductive FValue :=
| FDouble (d : number)
| FError (fe : FormulaError).

(** [std::visit([](const auto& x) { return Value(x); }, *cache_)]. *)
Definition Value_of_FValue (v : FValue) : Value :=
  match v with
  | FDouble d => VDouble d
  | FError fe => VError fe
  end.

(** ** Cells *)

(** [Cell::Impl] and its three subclasses; [FormulaImpl] carries the parsed
    formula and the mutable [cache_]. *)
Inductive Impl :=
| EmptyImpl
| TextImpl (text_ : string)
| FormulaImpl (formula_ : FormulaAST) (cache_ : option FValue).

Record Cell := mkCell {
  impl_ : Impl;
  referenced_cells_ : gset Position;
  dependent_cells_ : gset Position
}.

(** [Cell::Cell]: empty content, no edges. *)
Definition new_Cell : Cell := mkCell EmptyImpl ∅ ∅.

(** The sheet: the cells by position. *)
#[local] Abbreviation Sheet := (gmap Position Cell).

(** ** The monad *)

Definition M (A : Type) : Type := Sheet -> Sheet * outcome A.

Definition ret {A} (a : A) : M A := fun s => (s, Ret a).
Definition throw {A} (e : exn) : M A := fun s => (s, Throw e).
Definition out_of_fuel {A} : M A := fun s => (s, OutOfFuel).

Definition bind {A B} (m : M A) (k : A -> M B) : M B :=
  fun s =>
    match m s with
    | (s', Ret a) => k a s'
    | (s', Throw e) => (s', Throw e)
    | (s', OutOfFuel) => (s', OutOfFuel)
    end.

Definition get_sheet : M Sheet := fun s => (s, Ret s).
Definition modify_sheet (f : Sheet -> Sheet) : M unit := fun s => (f s, Ret tt).

(** [try { m } catch (FormulaError& e) { h e }]. *)
Definition catch_FormulaError {A} (m : M A) (h : FormulaError -> M A) : M A :=
  fun s =>
    match m s with
    | (s', Throw (ThrownFormulaError fe)) => h fe s'
    | r => r
    end.

(** [try { m } catch (...) { throw e; }]. *)
Definition catch_all {A} (m : M A) (e : exn) : M A :=
  fun s =>
    match m s with
    | (s', Throw _) => (s', Throw e)
    | r => r
    end.

End Core.

Abbreviation Sheet := (gmap Position Cell).

Notation "x <- m ;; k" := (bind m (fun x => k))
  (at level 100, m at next level, right associativity,
   format "'[v' x  <-  m  ;;  '/' k ']'").
Notation "m ;;; k" := (bind m (fun _ => k))
  (at level 100, right associativity).

Section Ops.
Context `{Collab : Collaborators}.

(** A range-based [for] over a container. *)
Fixpoint for_each {A} (l : list A) (body : A -> M unit) : M unit :=
  match l with
  | [] => ret tt
  | x :: l' => body x ;;; for_each l' body
  end.

(** ** The sheet, as the cell uses it *)

(** [sheet_.GetCell(pos)]: the cell stored at [pos], or a null pointer. *)
Definition GetCell (pos : Position) : M (option Cell) :=
  s <- get_sheet ;; ret (s !! pos).

(** Modelled from the spec: [sheet_.SetCell(pos, "")], of sheet.cpp, for a
    position that holds no cell, materializes an Empty cell there. *)
Definition Sheet_SetCell_empty (pos : Position) : M unit :=
  modify_sheet (fun s =>
    match s !! pos with
    | None => <[pos := new_Cell]> s
    | Some _ => s
    end).

(** Field updates through a [Cell*].  A pointer held by the cell core always
    designates a cell the sheet stores; for a position without a cell the
    update changes nothing. *)
Definition set_impl (p : Position) (i : Impl) : M unit :=
  modify_sheet (alter (fun c => mkCell i (referenced_cells_ c) (dependent_cells_ c)) p).

Definition update_referenced (p : Position) (f : gset Position -> gset Position) : M unit :=
  modify_sheet (alter (fun c => mkCell (impl_ c) (f (referenced_cells_ c)) (dependent_cells_ c)) p).

Definition update_dependent (p : Position) (f : gset Position -> gset Position) : M unit :=
  modify_sheet (alter (fun c => mkCell (impl_ c) (referenced_cells_ c) (f (dependent_cells_ c))) p).

(** The fields read through a [Cell*]. *)
Definition impl_at (s : Sheet) (p : Position) : Impl :=
  match s !! p with
  | Some c => impl_ c
  | None => EmptyImpl
  end.

Definition referenced_at (s : Sheet) (p : Position) : gset Position :=
  match s !! p with
  | Some c => referenced_cells_ c
  | None => ∅
  end.

Definition dependent_at (s : Sheet) (p : Position) : gset Position :=
  match s !! p with
  | Some c => dependent_cells_ c
  | None => ∅
  end.

(** ** formula.cpp *)

(** [std::unique]: of every run of equal neighbours the first is kept. *)
Fixpoint unique_from (last : Position) (l : list Position) : list Position :=
  match l with
  | [] => []
  | x :: l' =>
      if decide (last = x) then unique_from last l'
      else x :: unique_from x l'
  end.

Definition unique (l : list Position) : list Position :=
  match l with
  | [] => []
  | x :: l' => x :: unique_from x l'
  end.

(** [Formula::GetReferencedCells]. *)
Definition Formula_GetReferencedCells (ast : FormulaAST) : list Position :=
  unique (List.filter IsValid (GetCells ast)).

(** [ParseFormula]: any exception of the parser becomes a
    [FormulaException]. *)
Definition ParseFormula (expression : string) : M FormulaAST :=
  catch_all
    (match ParseFormulaAST expression with
     | Some ast => ret ast
     | None => throw (logic_error "parser")
     end)
    (FormulaException "Parsing failed").

(** [Formula::GetExpression]. *)
Definition Formula_GetExpression (ast : FormulaAST) : string := PrintFormula ast.

(** ** cell.cpp: the content variants *)

(** [TextImpl::TextImpl]. *)
Definition TextImpl_new (text : string) : M Impl :=
  match text with
  | EmptyString => throw (logic_error "Here is no text")
  | _ => ret (TextImpl text)
  end.

(** [FormulaImpl::FormulaImpl]. *)
Definition FormulaImpl_new (expression : string) : M Impl :=
  match expression with
  | EmptyString => throw (logic_error "Something wrong with formula implementation")
  | String c rest =>
      if negb (Ascii.eqb c FORMULA_SIGN)
      then throw (logic_error "Something wrong with formula implementation")
      else ast <- ParseFormula rest ;; ret (FormulaImpl ast None)
  end.

(** [Impl::GetReferencedCells]. *)
Definition Impl_GetReferencedCells (i : Impl) : list Position :=
  match i with
  | EmptyImpl => []
  | TextImpl _ => []
  | FormulaImpl ast _ => Formula_GetReferencedCells ast
  end.

(** [Impl::GetCache]. *)
Definition Impl_GetCache (i : Impl) : option FValue :=
  match i with
  | EmptyImpl => None
  | TextImpl _ => None
  | FormulaImpl _ cache => cache
  end.

(** [Impl::DestroyCache]. *)
Definition Impl_DestroyCache (i : Impl) : Impl :=
  match i with
  | EmptyImpl => EmptyImpl
  | TextImpl t => TextImpl t
  | FormulaImpl ast _ => FormulaImpl ast None
  end.

(** [Impl::GetText]. *)
Definition Impl_GetText (i : Impl) : string :=
  match i with
  | EmptyImpl => ""
  | TextImpl t => t
  | FormulaImpl ast _ => String FORMULA_SIGN (Formula_GetExpression ast)
  end.

(** [Cell::GetText], [Cell::GetReferencedCells]. *)
Definition Cell_GetText (s : Sheet) (this : Position) : string :=
  Impl_GetText (impl_at s this).

Definition Cell_GetReferencedCells (s : Sheet) (this : Position) : list Position :=
  Impl_GetReferencedCells (impl_at s this).

Definition Cell_GetCache (s : Sheet) (this : Position) : option FValue :=
  Impl_GetCache (impl_at s this).

(** ** cell.cpp: reading a value *)

(** [TextImpl::GetValue]; [text_.at(0)] throws on an empty string. *)
Definition TextImpl_GetValue (text_ : string) : M Value :=
  match text_ with
  | EmptyString => throw out_of_range
  | String c rest =>
      ret (VString (if Ascii.eqb c ESCAPE_SIGN then rest else text_))
  end.

(** [std::get<T>] on a [Value]. *)
Definition get_double (v : Value) : M number :=
  match v with VDouble d => ret d | _ => throw bad_variant_access end.

Definition get_string (v : Value) : M string :=
  match v with VString t => ret t | _ => throw bad_variant_access end.

Definition get_FormulaError (v : Value) : M FormulaError :=
  match v with VError fe => ret fe | _ => throw bad_variant_access end.

(** The lambda [CellImpl] of [Formula::Evaluate]; [GetValue] is
    [cell->GetValue()] of the cell stored at the position, and the lambda
    calls it anew each time it looks at the value. *)
Definition CellImpl (GetValue : Position -> M Value) (pos : Position) : M number :=
  if negb (IsValid pos) then throw (ThrownFormulaError RefErr)
  else
    cell <- GetCell pos ;;
    match cell with
    | None => ret zero
    | Some _ =>
        v1 <- GetValue pos ;;
        match v1 with
        | VDouble _ => v2 <- GetValue pos ;; get_double v2
        | _ =>
            v3 <- GetValue pos ;;
            match v3 with
            | VString _ =>
                v4 <- GetValue pos ;;
                value <- get_string v4 ;;
                match value with
                | EmptyString => ret zero
                | _ =>
                    match iss_extract value with
                    | Some (result, true) => ret result
                    | _ => throw (ThrownFormulaError ValueErr)
                    end
                end
            | _ =>
                v5 <- GetValue pos ;;
                fe <- get_FormulaError v5 ;;
                throw (ThrownFormulaError fe)
            end
        end
    end.

(** [ast_.Execute(CellImpl)]: the expression runs and calls the resolver. *)
Fixpoint run_Execute (resolver : Position -> M number) (e : Exec number) : M number :=
  match e with
  | Done r => ret r
  | Fail fe => throw (ThrownFormulaError fe)
  | Ask pos k => v <- resolver pos ;; run_Execute resolver (k v)
  end.

(** [Formula::Evaluate]. *)
Definition Formula_Evaluate (GetValue : Position -> M Value) (ast : FormulaAST) : M FValue :=
  catch_FormulaError
    (d <- run_Execute (CellImpl GetValue) (Execute ast) ;; ret (FDouble d))
    (fun fe => ret (FError fe)).

(** The assignment [cache_ = ...] inside [FormulaImpl::GetValue]. *)
Definition set_cache (p : Position) (v : FValue) : M unit :=
  modify_sheet (alter (fun c =>
    mkCell (match impl_ c with
            | FormulaImpl ast _ => FormulaImpl ast (Some v)
            | i => i
            end) (referenced_cells_ c) (dependent_cells_ c)) p).

(** [Cell::GetValue], through [Impl::GetValue] of the three variants. *)
Fixpoint Cell_GetValue (fuel : nat) (this : Position) : M Value :=
  match fuel with
  | O => out_of_fuel
  | S fuel' =>
      s <- get_sheet ;;
      match impl_at s this with
      | EmptyImpl => ret (VString "")
      | TextImpl text_ => TextImpl_GetValue text_
      | FormulaImpl formula_ cache_ =>
          v <- match cache_ with
               | Some v => ret v
               | None =>
                   v <- Formula_Evaluate (Cell_GetValue fuel') formula_ ;;
                   set_cache this v ;;;
                   ret v
               end ;;
          ret (Value_of_FValue v)
      end
  end.

(** ** cell.cpp: the dependency graph *)

(** [Cell::UpdateDependencies]. *)
Definition UpdateDependencies (this : Position) : M unit :=
  s <- get_sheet ;;
  for_each (elements (dependent_at s this)) (fun cell =>
    update_referenced cell (fun r => r ∖ {[this]})) ;;;
  update_referenced this (fun _ => ∅) ;;;
  s <- get_sheet ;;
  for_each (Cell_GetReferencedCells s this) (fun pos =>
    ref_cell <- GetCell pos ;;
    match ref_cell with
    | None => Sheet_SetCell_empty pos
    | Some _ => ret tt
    end ;;;
    update_referenced this (fun r => r ∪ {[pos]}) ;;;
    update_dependent pos (fun d => d ∪ {[this]})).

(** The loop of [Cell::CheckCircularDependencyImpl]; [rec] is the recursive
    call, [visited] is threaded as the reference parameter is. *)
Fixpoint check_positions (rec : gset Position -> list Position -> M (gset Position))
    (this : Position) (visited : gset Position) (positions : list Position)
    : M (gset Position) :=
  match positions with
  | [] => ret visited
  | pos :: rest =>
      cell <- GetCell pos ;;
      match cell with
      | Some c =>
          if decide (pos = this)
          then throw (CircularDependencyException "Circular cell")
          else if decide (pos ∈ visited)
          then check_positions rec this visited rest
          else
            let ref_cells := Impl_GetReferencedCells (impl_ c) in
            visited' <- match ref_cells with
                        | [] => ret visited
                        | _ => rec visited ref_cells
                        end ;;
            check_positions rec this (visited' ∪ {[pos]}) rest
      | None => check_positions rec this visited rest
      end
  end.

(** [Cell::CheckCircularDependencyImpl]. *)
Fixpoint CheckCircularDependencyImpl (fuel : nat) (this : Position)
    (visited : gset Position) (positions : list Position) : M (gset Position) :=
  match fuel with
  | O => out_of_fuel
  | S fuel' =>
      check_positions (CheckCircularDependencyImpl fuel' this) this visited positions
  end.

(** [Cell::CheckCircularDependency]. *)
Definition CheckCircularDependency (fuel : nat) (this : Position)
    (ref_cells : list Position) : M unit :=
  CheckCircularDependencyImpl fuel this ∅ ref_cells ;;; ret tt.

(** ** cell.cpp: the cache *)

(** [dep_cell->impl_->DestroyCache()]. *)
Definition destroy_cache_of (p : Position) : M unit :=
  modify_sheet (alter (fun c =>
    mkCell (Impl_DestroyCache (impl_ c)) (referenced_cells_ c) (dependent_cells_ c)) p).

(** [Cell::DestroyCache]. *)
Fixpoint DestroyCache (fuel : nat) (cell : Position) : M unit :=
  match fuel with
  | O => out_of_fuel
  | S fuel' =>
      s <- get_sheet ;;
      for_each (elements (dependent_at s cell)) (fun dep_cell =>
        s' <- get_sheet ;;
        match Cell_GetCache s' dep_cell with
        | Some _ => DestroyCache fuel' dep_cell ;;; destroy_cache_of dep_cell
        | None => ret tt
        end)
  end.

(** ** cell.cpp: the public operations *)

(** The first statement of [Cell::Set]: the candidate content. *)
Definition make_impl (text : string) : M Impl :=
  match text with
  | EmptyString => ret EmptyImpl
  | String c _ =>
      if (1 <? String.length text)%nat && Ascii.eqb c FORMULA_SIGN
      then FormulaImpl_new text
      else TextImpl_new text
  end.

(** [Cell::Set]. *)
Definition Cell_Set (fuel : nat) (this : Position) (text : string) : M unit :=
  impl <- make_impl text ;;
  CheckCircularDependency fuel this (Impl_GetReferencedCells impl) ;;;
  set_impl this impl ;;;
  UpdateDependencies this ;;;
  DestroyCache fuel this.

(** [Cell::Clear]. *)
Definition Cell_Clear (this : Position) : M unit :=
  set_impl this EmptyImpl.

End Ops.

(** ** A sample collaborator

    A small parser and evaluator that fits the interface: a formula is a sum
    of cell names, each one capital letter (the column) and one digit from 1
    to 9 (the row); numbers are integers. *)
Module Sample.

Definition is_upper (c : ascii) : bool :=
  ((65 <=? Z.of_nat (nat_of_ascii c)) && (Z.of_nat (nat_of_ascii c) <=? 90))%Z.

Definition is_digit (c : ascii) : bool :=
  ((48 <=? Z.of_nat (nat_of_ascii c)) && (Z.of_nat (nat_of_ascii c) <=? 57))%Z.

Definition cell_of (c d : ascii) : Position :=
  mkPosition (Z.of_nat (nat_of_ascii d) - 49) (Z.of_nat (nat_of_ascii c) - 65).

Fixpoint parse_sum (t : string) : option (list Position) :=
  match t with
  | String c (String d rest) =>
      if is_upper c && is_digit d then
        match rest with
        | EmptyString => Some [cell_of c d]
        | String plus rest' =>
            if Ascii.eqb plus "+"%char
            then cons (cell_of c d) <$> parse_sum rest'
            else None
        end
      else None
  | _ => None
  end.

Definition is_valid (p : Position) : bool :=
  ((0 <=? row p) && (0 <=? col p) && (row p <? 16384) && (col p <? 16384))%Z.

Fixpoint exec_sum (acc : Z) (l : list Position) : Exec Z :=
  match l with
  | [] => Done acc
  | p :: l' => Ask p (fun v => exec_sum (acc + v) l')
  end.

Definition print_cell (p : Position) : string :=
  String (ascii_of_nat (Z.to_nat (col p + 65)))
    (String (ascii_of_nat (Z.to_nat (row p + 49))) EmptyString).

Fixpoint print_sum (l : list Position) : string :=
  match l with
  | [] => ""
  | [p] => print_cell p
  | p :: l' => print_cell p ++ "+" ++ print_sum l'
  end.

(** Reads the decimal digits at the front of the text; the end-of-stream
    flag is set when nothing follows them. *)
Fixpoint read_digits (acc : Z) (t : string) : Z * bool :=
  match t with
  | EmptyString => (acc, true)
  | String c rest =>
      if is_digit c
      then read_digits (10 * acc + (Z.of_nat (nat_of_ascii c) - 48)) rest
      else (acc, false)
  end.

Definition extract (t : string) : option (Z * bool) :=
  match t with
  | EmptyString => None
  | String c _ => if is_digit c then Some (read_digits 0 t) else None
  end.

#[export] Instance collab : Collaborators := {|
  number := Z;
  zero := 0;
  IsValid := is_valid;
  FormulaAST := list Position;
  ParseFormulaAST := parse_sum;
  GetCells := fun ast => ast;
  Execute := exec_sum 0;
  PrintFormula := print_sum;
  iss_extract := extract
|}.

Definition A1 : Position := mkPosition 0 0.
Definition B1 : Position := mkPosition 0 1.
Definition C1 : Position := mkPosition 0 2.
Definition D1 : Position := mkPosition 0 3.

(** Modelled from the spec: [sheet.SetCell(pos, text)], of sheet.cpp, as a
    client calls it.  The cell is created when the position holds none,
    then [Cell::Set] runs on it. *)
Definition SetCell (fuel : nat) (pos : Position) (text : string) : M unit :=
  Sheet_SetCell_empty pos ;;; Cell_Set fuel pos text.

(** A sheet with one empty cell at A1. *)
Definition sheet_A1 : Sheet :=
  (Sheet_SetCell_empty A1 ∅).1.

(** A1 is empty and B1 reads A1. *)
Definition sheet_B1_reads_A1 : Sheet :=
  ((SetCell 5 A1 "" ;;; SetCell 5 B1 "=A1") ∅).1.

(** The chain A1 = 1, B1 = A1, C1 = B1, with C1 read once. *)
Definition sheet_chain : Sheet :=
  ((SetCell 5 A1 "1" ;;; SetCell 5 B1 "=A1" ;;; SetCell 5 C1 "=B1" ;;;
    Cell_GetValue 5 C1) ∅).1.

(** A1 is text that is no number, B1 reads D1, C1 reads A1 and then B1, and
    C1 was read once: its evaluation ended at A1, before it came to B1. *)
Definition sheet_abort : Sheet :=
  ((SetCell 5 A1 "abc" ;;; SetCell 5 B1 "=D1" ;;; SetCell 5 C1 "=A1+B1" ;;;
    Cell_GetValue 5 C1) ∅).1.

(** A1 was set to "=B1" and then to "=C1", B1 to "=A1", and B1 was read:
    A1 and B1 hold memos, B1 is a dependent of A1, and A1 is still listed as
    a dependent of B1. *)
Definition sheet_stale_cycle : Sheet :=
  ((SetCell 9 A1 "=B1" ;;; SetCell 9 A1 "=C1" ;;; SetCell 9 B1 "=A1" ;;;
    Cell_GetValue 9 B1) ∅).1.

(** A1 holds the text 12. *)
Definition sheet_number : Sheet :=
  ((SetCell 5 A1 "12") ∅).1.

End Sample.

(** * The vocabulary of the properties *)

Section Vocabulary.
Context `{Collab : Collaborators}.

(** ** Computations *)

(** A computation that never throws. *)
Definition no_throw {A} (m : M A) : Prop :=
  forall s s' e, m s <> (s', Throw e).

(** A computation that never writes to the sheet. *)
Definition read_only {A} (m : M A) : Prop :=
  forall s s' r, m s = (s', r) -> s' = s.

(** A computation that writes memos only: every cell keeps its content and
    its edges. *)
Definition erase_cache (c : Cell) : Cell :=
  mkCell (Impl_DestroyCache (impl_ c)) (referenced_cells_ c) (dependent_cells_ c).

Definition caches_only {A} (m : M A) : Prop :=
  forall s s' r, m s = (s', r) ->
    forall q, erase_cache <$> (s' !! q) = erase_cache <$> (s !! q).

(** A computation whose only exception is the one of the cycle search. *)
Definition only_circular {A} (m : M A) : Prop :=
  forall s s' e, m s = (s', Throw e) ->
    e = CircularDependencyException "Circular cell".

(** [m2] does what [m1] does wherever [m1] has enough fuel. *)
Definition refines {A} (m1 m2 : M A) : Prop :=
  forall s s' r, m1 s = (s', r) -> r <> OutOfFuel -> m2 s = (s', r).

(** ** The content [Cell::Set] builds *)

(** The test of [Cell::Set] for formula input: longer than one character,
    and the first one is the formula sign. *)
Definition is_formula_input (text : string) : bool :=
  match text with
  | EmptyString => false
  | String c _ => (1 <? String.length text)%nat && Ascii.eqb c FORMULA_SIGN
  end.

(** ** The cascade *)

(** The sheet with the memos of the cells of [X] dropped. *)
Definition clear_caches (X : gset Position) (s : Sheet) : Sheet :=
  map_imap (fun p c => Some (if decide (p ∈ X) then erase_cache c else c)) s.

(** The cell holds a memo. *)
Definition holds_memo (s : Sheet) (p : Position) : Prop :=
  is_Some (Cell_GetCache s p).

(** One step of the walk of the cascade: from a cell to one of its
    dependents that holds a memo. *)
Definition cascade_step (s : Sheet) (a b : Position) : Prop :=
  b ∈ dependent_at s a ∧ holds_memo s b.

(** The same step on the sheet [clear_caches X s0]. *)
Definition walk (s0 : Sheet) (X : gset Position) (a b : Position) : Prop :=
  b ∈ dependent_at s0 a ∧ holds_memo s0 b ∧ (b ∉ X).

(** The walk of the cascade that follows [Set] on [this], read on the sheet
    before the call: from a cell to a dependent, other than [this], that
    holds a memo. *)
Definition cascade_walk (s : Sheet) (this a b : Position) : Prop :=
  b ∈ dependent_at s a ∧ b <> this ∧ holds_memo s b.

(** The body of the loop of [DestroyCache]. *)
Definition cascade_body (fuel : nat) (dep_cell : Position) : M unit :=
  s' <- get_sheet ;;
  match Cell_GetCache s' dep_cell with
  | Some _ => DestroyCache fuel dep_cell ;;; destroy_cache_of dep_cell
  | None => ret tt
  end.

(** What a cascade that returns on [clear_caches X s0] has done: it dropped
    the memos of the cells the walk reaches from [c], and nothing else. *)
Definition cascade_result (s0 : Sheet) (fuel : nat) : Prop :=
  forall c X s', DestroyCache fuel c (clear_caches X s0) = (s', Ret tt) ->
    exists Y : gset Position,
      s' = clear_caches (X ∪ Y) s0 /\ forall p, p ∈ Y ↔ tc (walk s0 X) c p.

(** No walk of the cascade from [p] is longer than [n]. *)
Fixpoint walk_depth (n : nat) (s : Sheet) (this p : Position) : bool :=
  match n with
  | O => false
  | S n' =>
      forallb (fun d =>
        if decide (d = this) then true
        else match Cell_GetCache s d with
             | Some _ => walk_depth n' s this d
             | None => true
             end) (elements (dependent_at s p))
  end.

(** ** The edges *)

(** [sheet_.SetCell(pos, "")] as a function of the sheet: a materialized cell
    is an empty one without edges, which is what the accessors read at a
    position without a cell. *)
Definition materialize (pos : Position) (s : Sheet) : Sheet :=
  match s !! pos with
  | None => <[pos := new_Cell]> s
  | Some _ => s
  end.

(** One round of the second loop of [UpdateDependencies]. *)
Definition link (this pos : Position) (s : Sheet) : Sheet :=
  alter (fun c => mkCell (impl_ c) (referenced_cells_ c) (dependent_cells_ c ∪ {[this]})) pos
    (alter (fun c => mkCell (impl_ c) (referenced_cells_ c ∪ {[pos]}) (dependent_cells_ c)) this
       (materialize pos s)).

(** The first loop of [UpdateDependencies] and the [clear] that follows. *)
Definition unlink (this : Position) (s : Sheet) : Sheet :=
  alter (fun c => mkCell (impl_ c) ∅ (dependent_cells_ c)) this
    (foldl (fun s cell =>
        alter (fun c => mkCell (impl_ c) (referenced_cells_ c ∖ {[this]}) (dependent_cells_ c)) cell s)
      s (elements (dependent_at s this))).

(** ** The cycle search *)

(** An edge of the reference graph: the content of [a] reads [b]. *)
Definition ref_step (s : Sheet) (a b : Position) : Prop :=
  b ∈ Cell_GetReferencedCells s a.

(** No chain of references from [p] is longer than [n]. *)
Fixpoint ref_depth (n : nat) (s : Sheet) (p : Position) : bool :=
  match n with
  | O => false
  | S n' => forallb (ref_depth n' s) (Cell_GetReferencedCells s p)
  end.

(** A search that throws has a position in its list from which the
    references lead to [this]. *)
Definition throw_sound (s : Sheet) (this : Position)
    (rec : gset Position -> list Position -> M (gset Position)) : Prop :=
  forall visited positions s' e,
    rec visited positions s = (s', Throw e) ->
    exists p, p ∈ positions ∧ rtc (ref_step s) p this.

(** The position is not [this], and is visited if it holds a cell. *)
Definition clean (s : Sheet) (this : Position) (p : Position) (V : gset Position) : Prop :=
  p <> this ∧ (is_Some (s !! p) -> p ∈ V).

(** The visited set is closed: from a visited cell the references lead to
    visited cells or to positions without a cell, never to [this]. *)
Definition closed (s : Sheet) (this : Position) (V : gset Position) : Prop :=
  forall v, v ∈ V -> v <> this ∧ forall q, ref_step s v q -> clean s this q V.

(** A search that returns has visited its list, and keeps the set closed. *)
Definition ret_complete (s : Sheet) (this : Position)
    (rec : gset Position -> list Position -> M (gset Position)) : Prop :=
  forall V positions s' V',
    closed s this V -> rec V positions s = (s', Ret V') ->
    closed s this V' ∧ V ⊆ V' ∧ forall p, p ∈ positions -> clean s this p V'.

(** Fuel [n] is enough for the search of the list [l], whatever was
    visited. *)
Definition enough (s : Sheet) (this : Position) (n : nat) (l : list Position) : Prop :=
  forall V, (CheckCircularDependencyImpl n this V l s).2 <> OutOfFuel.

(** ** Values and positions *)

(** What the resolver makes of a value. *)
Definition resolve (v : Value) : outcome number :=
  match v with
  | VDouble d => Ret d
  | VString EmptyString => Ret zero
  | VString t =>
      match iss_extract t with
      | Some (d, true) => Ret d
      | _ => Throw (ThrownFormulaError ValueErr)
      end
  | VError fe => Throw (ThrownFormulaError fe)
  end.

(** No two neighbours of the list are equal. *)
Fixpoint no_equal_neighbours (last : Position) (l : list Position) : Prop :=
  match l with
  | [] => True
  | x :: l' => last <> x ∧ no_equal_neighbours x l'
  end.

End Vocabulary.

(** * More of the source, and more vocabulary *)

(** formula.cpp: [FormulaError::operator==], the comparison of the two
    categories. *)
Definition FormulaError_eqb (a b : FormulaError) : bool :=
  match a, b with
  | RefErr, RefErr => true
  | ValueErr, ValueErr => true
  | Div0Err, Div0Err => true
  | _, _ => false
  end.

Section More_vocabulary.
Context `{Collab : Collaborators}.

(** No cell holds a [TextImpl] over the empty string, the state the
    constructor of [TextImpl] refuses. *)
Definition no_empty_text (s : Sheet) : Prop :=
  forall p, impl_at s p <> TextImpl "".

(** The same, as a check of the cells of the sheet. *)
Definition no_empty_textb (s : Sheet) : bool :=
  forallb (fun pc : Position * Cell =>
             match impl_ pc.2 with
             | TextImpl EmptyString => false
             | _ => true
             end) (map_to_list s).

(** No chain of references from a cell of the sheet is longer than [n]. *)
Definition ref_depth_all (n : nat) (s : Sheet) : bool :=
  forallb (fun pc : Position * Cell => ref_depth n s pc.1) (map_to_list s).

(** The order of the positions by row and then by column. *)
Definition Position_le (a b : Position) : Prop :=
  row a < row b ∨ (row a = row b ∧ col a <= col b).

(** The run of an expression asks for the values of positions of the list
    only. *)
Fixpoint asks_within (l : list Position) (e : Exec number) : Prop :=
  match e with
  | Done _ | Fail _ => True
  | Ask pos k => pos ∈ l ∧ forall v, asks_within l (k v)
  end.

(** The two sheets differ in memos only. *)
Definition same_but_caches (s s2 : Sheet) : Prop :=
  forall q, erase_cache <$> (s2 !! q) = erase_cache <$> (s !! q).

(** A computation that keeps a property of the sheet, whatever its
    outcome. *)
Definition keeps {A} (I : Sheet -> Prop) (m : M A) : Prop :=
  forall s s' r, I s -> m s = (s', r) -> I s'.

(** A run of the expression throws nothing but a [FormulaError]. *)
Definition only_FormulaError {A} (m : M A) : Prop :=
  forall s s' e, no_empty_text s -> m s = (s', Throw e) ->
    exists fe, e = ThrownFormulaError fe.

End More_vocabulary.

(** * Properties *)

Section Monad_facts.
Context `{Collab : Collaborators}.

Lemma bind_Ret {A B} (m : M A) (k : A -> M B) s s' a :
  m s = (s', Ret a) -> bind m k s = k a s'.
Proof. unfold bind. by intros ->. Qed.

Lemma bind_Throw {A B} (m : M A) (k : A -> M B) s s' e :
  m s = (s', Throw e) -> bind m k s = (s', Throw e).
Proof. unfold bind. by intros ->. Qed.

Lemma bind_OutOfFuel {A B} (m : M A) (k : A -> M B) s s' :
  m s = (s', OutOfFuel) -> bind m k s = (s', OutOfFuel).
Proof. unfold bind. by intros ->. Qed.

(** The three ways a sequence ends. *)
Lemma bind_inv {A B} (m : M A) (k : A -> M B) s s2 r :
  bind m k s = (s2, r) ->
  (exists s1 a, m s = (s1, Ret a) /\ k a s1 = (s2, r)) \/
  (exists e, m s = (s2, Throw e) /\ r = Throw e) \/
  (m s = (s2, OutOfFuel) /\ r = OutOfFuel).
Proof.
  unfold bind. destruct (m s) as [s1 [a|e|]]; intros Heq.
  - left. eauto.
  - right. left. exists e. by inversion Heq.
  - right. right. by inversion Heq.
Qed.

Lemma bind_get_sheet {B} (k : Sheet -> M B) s : bind get_sheet k s = k s s.
Proof. reflexivity. Qed.

Lemma bind_modify_sheet {B} f (k : unit -> M B) s :
  bind (modify_sheet f) k s = k tt (f s).
Proof. reflexivity. Qed.

Lemma no_throw_ret {A} (a : A) : no_throw (ret a).
Proof. intros s s' e. unfold ret. congruence. Qed.

Lemma no_throw_out_of_fuel {A} : no_throw (@out_of_fuel _ A).
Proof. intros s s' e. unfold out_of_fuel. congruence. Qed.

Lemma no_throw_get_sheet : no_throw get_sheet.
Proof. intros s s' e. unfold get_sheet. congruence. Qed.

Lemma no_throw_modify_sheet f : no_throw (modify_sheet f).
Proof. intros s s' e. unfold modify_sheet. congruence. Qed.

Lemma no_throw_bind {A B} (m : M A) (k : A -> M B) :
  no_throw m -> (forall a, no_throw (k a)) -> no_throw (bind m k).
Proof.
  intros Hm Hk s s' e Heq.
  destruct (bind_inv _ _ _ _ _ Heq) as [(s1 & a & _ & Hk')|[(e' & Hm' & _)|[_ ?]]].
  - by eapply Hk.
  - by eapply Hm.
  - done.
Qed.

Lemma no_throw_for_each {A} (l : list A) (body : A -> M unit) :
  (forall x, no_throw (body x)) -> no_throw (for_each l body).
Proof.
  intros Hbody. induction l as [|x l IH]; simpl.
  - apply no_throw_ret.
  - apply no_throw_bind; [apply Hbody | intros _; apply IH].
Qed.

Lemma read_only_ret {A} (a : A) : read_only (ret a).
Proof. intros s s' r. unfold ret. congruence. Qed.

Lemma read_only_throw {A} e : read_only (@throw _ A e).
Proof. intros s s' r. unfold throw. congruence. Qed.

Lemma read_only_out_of_fuel {A} : read_only (@out_of_fuel _ A).
Proof. intros s s' r. unfold out_of_fuel. congruence. Qed.

Lemma read_only_get_sheet : read_only get_sheet.
Proof. intros s s' r. unfold get_sheet. congruence. Qed.

Lemma read_only_bind {A B} (m : M A) (k : A -> M B) :
  read_only m -> (forall a, read_only (k a)) -> read_only (bind m k).
Proof.
  intros Hm Hk s s' r Heq.
  destruct (bind_inv _ _ _ _ _ Heq) as [(s1 & a & Hm' & Hk')|[(e' & Hm' & _)|[Hm' _]]].
  - apply Hm in Hm' as ->. by eapply Hk.
  - by eapply Hm.
  - by eapply Hm.
Qed.

Lemma read_only_GetCell pos : read_only (GetCell pos).
Proof.
  apply read_only_bind; [apply read_only_get_sheet | intros; apply read_only_ret].
Qed.

Lemma GetCell_eq pos s : GetCell pos s = (s, Ret (s !! pos)).
Proof. reflexivity. Qed.

Lemma no_throw_GetCell pos : no_throw (GetCell pos).
Proof. intros s s' e. rewrite GetCell_eq. congruence. Qed.

(** Strong normalization goes down to a smaller relation. *)
Lemma sn_subrel {A} (R1 R2 : relation A) x :
  (forall a b, R1 a b -> R2 a b) -> sn R2 x -> sn R1 x.
Proof.
  intros Hsub. induction 1 as [x _ IH].
  constructor. intros y Hy. apply IH. by apply Hsub.
Qed.

End Monad_facts.

Create HintDb cellcore.

#[global] Hint Resolve no_throw_ret no_throw_out_of_fuel no_throw_get_sheet
  no_throw_modify_sheet read_only_ret read_only_throw read_only_out_of_fuel
  read_only_get_sheet read_only_GetCell : cellcore.

(** ** What [Cell::Set] can throw, and when *)

Section Set_failure.
Context `{Collab : Collaborators}.

Lemma check_positions_read_only rec this visited positions :
  (forall v l, read_only (rec v l)) ->
  read_only (check_positions rec this visited positions).
Proof.
  intros Hrec. revert visited.
  induction positions as [|pos rest IH]; intros visited; simpl.
  - apply read_only_ret.
  - apply read_only_bind; [apply read_only_GetCell|].
    intros [c|]; [|apply IH].
    case_decide; [apply read_only_throw|].
    case_decide; [apply IH|].
    apply read_only_bind; [|intros; apply IH].
    destruct (Impl_GetReferencedCells (impl_ c)); [apply read_only_ret | apply Hrec].
Qed.

Lemma CheckCircularDependencyImpl_read_only fuel this visited positions :
  read_only (CheckCircularDependencyImpl fuel this visited positions).
Proof.
  revert visited positions.
  induction fuel as [|fuel IH]; intros visited positions; simpl.
  - apply read_only_out_of_fuel.
  - by apply check_positions_read_only.
Qed.

Lemma check_positions_only_circular rec this visited positions :
  (forall v l, only_circular (rec v l)) ->
  only_circular (check_positions rec this visited positions).
Proof.
  intros Hrec. revert visited.
  induction positions as [|pos rest IH]; intros visited s s' e; simpl.
  - unfold ret. congruence.
  - rewrite (bind_Ret _ _ _ _ _ (GetCell_eq pos s)).
    destruct (s !! pos) as [c|]; [|apply IH].
    case_decide; [unfold throw; congruence|].
    case_decide; [apply IH|].
    intros Heq.
    destruct (bind_inv _ _ _ _ _ Heq) as [(s1 & a & _ & Hk)|[(e' & Hm & He)|[_ ?]]];
      [by eapply IH | | done].
    inversion He; subst e'.
    destruct (Impl_GetReferencedCells (impl_ c)); [by inversion Hm | by eapply Hrec].
Qed.

Lemma CheckCircularDependencyImpl_only_circular fuel this visited positions :
  only_circular (CheckCircularDependencyImpl fuel this visited positions).
Proof.
  revert visited positions.
  induction fuel as [|fuel IH]; intros visited positions; simpl.
  - intros s s' e. unfold out_of_fuel. congruence.
  - by apply check_positions_only_circular.
Qed.

Lemma CheckCircularDependency_read_only fuel this ref_cells :
  read_only (CheckCircularDependency fuel this ref_cells).
Proof.
  apply read_only_bind;
    [apply CheckCircularDependencyImpl_read_only | intros; apply read_only_ret].
Qed.

Lemma CheckCircularDependency_only_circular fuel this ref_cells :
  only_circular (CheckCircularDependency fuel this ref_cells).
Proof.
  intros s s' e Heq.
  destruct (bind_inv _ _ _ _ _ Heq) as [(s1 & a & _ & Hk)|[(e' & Hm & He)|[_ ?]]];
    [by inversion Hk | | done].
  inversion He; subst e'.
  by eapply CheckCircularDependencyImpl_only_circular.
Qed.

(** The candidate content is built without touching the sheet, and the
    parser is the only thing that can fail there. *)
Lemma ParseFormula_eq expression s :
  ParseFormula expression s =
    (s, match ParseFormulaAST expression with
        | Some ast => Ret ast
        | None => Throw (FormulaException "Parsing failed")
        end).
Proof. unfold ParseFormula, catch_all. by destruct (ParseFormulaAST expression). Qed.

Lemma make_impl_eq text s :
  make_impl text s =
    (s, match text with
        | EmptyString => Ret EmptyImpl
        | String c rest =>
            if is_formula_input text then
              match ParseFormulaAST rest with
              | Some ast => Ret (FormulaImpl ast None)
              | None => Throw (FormulaException "Parsing failed")
              end
            else Ret (TextImpl text)
        end).
Proof.
  destruct text as [|c rest]; [done|].
  unfold make_impl, is_formula_input.
  destruct (1 <? _)%nat; simpl; [|done].
  destruct (Ascii.eqb c FORMULA_SIGN) eqn:Hc; simpl; [|done].
  unfold bind. rewrite ParseFormula_eq.
  by destruct (ParseFormulaAST rest).
Qed.

Lemma UpdateDependencies_no_throw this : no_throw (UpdateDependencies this).
Proof.
  unfold UpdateDependencies.
  repeat (first
    [ apply no_throw_modify_sheet
    | apply no_throw_get_sheet
    | apply no_throw_ret
    | apply no_throw_GetCell
    | apply no_throw_for_each; intros ?
    | apply no_throw_bind; [|intros ?]
    | match goal with |- no_throw (match ?c with _ => _ end) => destruct c end ]).
Qed.

Lemma DestroyCache_no_throw fuel cell : no_throw (DestroyCache fuel cell).
Proof.
  revert cell. induction fuel as [|fuel IH]; intros cell; simpl.
  - apply no_throw_out_of_fuel.
  - apply no_throw_bind; [apply no_throw_get_sheet|]. intros s0.
    apply no_throw_for_each. intros dep.
    apply no_throw_bind; [apply no_throw_get_sheet|]. intros s1.
    destruct (Cell_GetCache s1 dep); [|apply no_throw_ret].
    apply no_throw_bind; [apply IH | intros; apply no_throw_modify_sheet].
Qed.

(** [Cell::Set] throws before it writes: the sheet it leaves is the one it
    found, and the exception is the parser's or the cycle search's. *)
Lemma Cell_Set_Throw fuel this text s s' e :
  Cell_Set fuel this text s = (s', Throw e) ->
  s' = s /\
  (e = FormulaException "Parsing failed" \/
   e = CircularDependencyException "Circular cell").
Proof.
  unfold Cell_Set. intros Heq.
  destruct (bind_inv _ _ _ _ _ Heq) as [(s1 & impl & Hm & Hk)|[(e' & Hm & He)|[_ ?]]];
    [| |done].
  2:{ inversion He; subst e'. rewrite make_impl_eq in Hm.
      inversion Hm as [[Hs Hr]]. split; [done|]. left.
      destruct text as [|c rest]; [done|].
      destruct (is_formula_input _); [|done].
      destruct (ParseFormulaAST rest); congruence. }
  rewrite make_impl_eq in Hm. inversion Hm as [[Hs Hr]]. subst s1. clear Hm.
  destruct (bind_inv _ _ _ _ _ Hk) as [(s1 & [] & Hm & Hk')|[(e' & Hm & He)|[_ ?]]];
    [| |done].
  2:{ inversion He; subst e'.
      pose proof (CheckCircularDependency_read_only _ _ _ _ _ _ Hm) as ->.
      split; [done|]. right.
      by eapply CheckCircularDependency_only_circular. }
  exfalso. revert Hk'.
  apply no_throw_bind; [apply no_throw_modify_sheet|intros _].
  apply no_throw_bind; [apply UpdateDependencies_no_throw|intros _].
  apply DestroyCache_no_throw.
Qed.

End Set_failure.

(** ** More fuel never changes a result *)

Section Fuel.
Context `{Collab : Collaborators}.

Lemma refines_refl {A} (m : M A) : refines m m.
Proof. by intros s s' r. Qed.

Lemma refines_bind {A B} (m1 m2 : M A) (k1 k2 : A -> M B) :
  refines m1 m2 -> (forall a, refines (k1 a) (k2 a)) ->
  refines (bind m1 k1) (bind m2 k2).
Proof.
  intros Hm Hk s s' r Heq Hr.
  destruct (bind_inv _ _ _ _ _ Heq) as [(s1 & a & Hm' & Hk')|[(e' & Hm' & ->)|[_ ?]]];
    [| |done].
  - pose proof (Hm _ _ _ Hm' ltac:(done)) as Hm2.
    rewrite (bind_Ret _ _ _ _ _ Hm2). by apply Hk.
  - pose proof (Hm _ _ _ Hm' ltac:(done)) as Hm2.
    by rewrite (bind_Throw _ _ _ _ _ Hm2).
Qed.

Lemma refines_for_each {A} (l : list A) (b1 b2 : A -> M unit) :
  (forall x, refines (b1 x) (b2 x)) -> refines (for_each l b1) (for_each l b2).
Proof.
  intros Hb. induction l as [|x l IH]; simpl; [apply refines_refl|].
  apply refines_bind; [apply Hb | intros _; apply IH].
Qed.

Lemma refines_out_of_fuel {A} (m : M A) : refines out_of_fuel m.
Proof. intros s s' r. unfold out_of_fuel. intros [= _ <-]. done. Qed.

Lemma DestroyCache_fuel_S fuel cell :
  refines (DestroyCache fuel cell) (DestroyCache (S fuel) cell).
Proof.
  revert cell. induction fuel as [|fuel IH]; intros cell.
  - apply refines_out_of_fuel.
  - change (DestroyCache (S (S fuel)) cell) with
      (s <- get_sheet ;;
       for_each (elements (dependent_at s cell)) (fun dep_cell =>
         s' <- get_sheet ;;
         match Cell_GetCache s' dep_cell with
         | Some _ => DestroyCache (S fuel) dep_cell ;;; destroy_cache_of dep_cell
         | None => ret tt
         end)).
    simpl. apply refines_bind; [apply refines_refl|]. intros s0.
    apply refines_for_each. intros dep.
    apply refines_bind; [apply refines_refl|]. intros s1.
    destruct (Cell_GetCache s1 dep); [|apply refines_refl].
    apply refines_bind; [apply IH | intros; apply refines_refl].
Qed.

Lemma DestroyCache_fuel_le n m cell :
  (n <= m)%nat -> refines (DestroyCache n cell) (DestroyCache m cell).
Proof.
  induction 1 as [|m _ IH]; [apply refines_refl|].
  intros s s' r Heq Hr. apply DestroyCache_fuel_S; [|done]. by apply IH.
Qed.

Lemma check_positions_refines rec1 rec2 this visited positions :
  (forall v l, refines (rec1 v l) (rec2 v l)) ->
  refines (check_positions rec1 this visited positions)
          (check_positions rec2 this visited positions).
Proof.
  intros Hrec. revert visited.
  induction positions as [|pos rest IH]; intros visited; simpl.
  - apply refines_refl.
  - apply refines_bind; [apply refines_refl|].
    intros [c|]; [|apply IH].
    case_decide; [apply refines_refl|].
    case_decide; [apply IH|].
    apply refines_bind; [|intros; apply IH].
    destruct (Impl_GetReferencedCells (impl_ c)); [apply refines_refl | apply Hrec].
Qed.

Lemma CheckCircularDependencyImpl_fuel_S fuel this visited positions :
  refines (CheckCircularDependencyImpl fuel this visited positions)
          (CheckCircularDependencyImpl (S fuel) this visited positions).
Proof.
  revert visited positions.
  induction fuel as [|fuel IH]; intros visited positions.
  - apply refines_out_of_fuel.
  - change (CheckCircularDependencyImpl (S (S fuel)) this visited positions) with
      (check_positions (CheckCircularDependencyImpl (S fuel) this) this visited positions).
    simpl. by apply check_positions_refines.
Qed.

Lemma CheckCircularDependencyImpl_fuel_le n m this visited positions :
  (n <= m)%nat ->
  refines (CheckCircularDependencyImpl n this visited positions)
          (CheckCircularDependencyImpl m this visited positions).
Proof.
  induction 1 as [|m _ IH]; [apply refines_refl|].
  intros s s' r Heq Hr. apply CheckCircularDependencyImpl_fuel_S; [|done]. by apply IH.
Qed.

End Fuel.

(** ** The invalidation cascade *)

Section Cascade.
Context `{Collab : Collaborators}.

Lemma lookup_clear_caches X s p :
  clear_caches X s !! p =
    (fun c => if decide (p ∈ X) then erase_cache c else c) <$> s !! p.
Proof. unfold clear_caches. rewrite map_lookup_imap. by destruct (s !! p). Qed.

Lemma erase_cache_idemp c : erase_cache (erase_cache c) = erase_cache c.
Proof. destruct c as [[] ? ?]; reflexivity. Qed.

Lemma clear_caches_empty s : clear_caches ∅ s = s.
Proof.
  apply map_eq. intros p. rewrite lookup_clear_caches.
  destruct (s !! p); simpl; [|done]. by rewrite decide_False by set_solver.
Qed.

Lemma alter_erase_clear_caches d X s :
  alter erase_cache d (clear_caches X s) = clear_caches (X ∪ {[d]}) s.
Proof.
  apply map_eq. intros p.
  destruct (decide (d = p)) as [->|Hne];
    [rewrite lookup_alter_eq | rewrite lookup_alter_ne by done];
    rewrite !lookup_clear_caches; destruct (s !! p) as [c|]; simpl; try done.
  - rewrite (decide_True (P := p ∈ X ∪ {[p]})) by set_solver.
    case_decide; [by rewrite erase_cache_idemp | done].
  - destruct (decide (p ∈ X)), (decide (p ∈ X ∪ {[d]})); try done; set_solver.
Qed.

Lemma dependent_at_clear_caches X s p :
  dependent_at (clear_caches X s) p = dependent_at s p.
Proof.
  unfold dependent_at. rewrite lookup_clear_caches.
  destruct (s !! p); simpl; [|done]. by case_decide.
Qed.

Lemma Impl_GetCache_DestroyCache i : Impl_GetCache (Impl_DestroyCache i) = None.
Proof. by destruct i. Qed.

Lemma Cell_GetCache_clear_caches X s p :
  Cell_GetCache (clear_caches X s) p =
    if decide (p ∈ X) then None else Cell_GetCache s p.
Proof.
  unfold Cell_GetCache, impl_at. rewrite lookup_clear_caches.
  destruct (s !! p); simpl; case_decide; try done.
  apply Impl_GetCache_DestroyCache.
Qed.

Lemma impl_at_clear_caches X s p :
  impl_at (clear_caches X s) p =
    if decide (p ∈ X) then Impl_DestroyCache (impl_at s p) else impl_at s p.
Proof.
  unfold impl_at. rewrite lookup_clear_caches.
  destruct (s !! p); simpl; by case_decide.
Qed.

Lemma DestroyCache_S fuel cell s :
  DestroyCache (S fuel) cell s =
    for_each (elements (dependent_at s cell)) (cascade_body fuel) s.
Proof. reflexivity. Qed.

Lemma cascade_body_eq fuel d s :
  cascade_body fuel d s =
    match Cell_GetCache s d with
    | Some _ => (DestroyCache fuel d ;;; destroy_cache_of d) s
    | None => (s, Ret tt)
    end.
Proof. unfold cascade_body, bind, get_sheet. by destruct (Cell_GetCache s d). Qed.

Section Walk.
Variable s0 : Sheet.

Lemma walk_cascade_step X a b :
  walk s0 X a b <-> cascade_step (clear_caches X s0) a b.
Proof.
  unfold walk, cascade_step, holds_memo.
  rewrite dependent_at_clear_caches, Cell_GetCache_clear_caches.
  destruct (decide (b ∈ X)); split; try tauto.
  intros (_ & Hnone). by destruct Hnone.
Qed.

Lemma walk_mono X X' a b : X ⊆ X' -> walk s0 X' a b -> walk s0 X a b.
Proof. unfold walk. set_solver. Qed.

(** Past a set that is closed under the walk, a walk s0 that ends outside the
    set never enters it. *)
Lemma walk_avoid X (C : gset Position) a p :
  (forall x y, x ∈ C -> walk s0 X x y -> y ∈ C) ->
  rtc (walk s0 X) a p -> p ∉ C ->
  (a ∉ C) /\ rtc (walk s0 (X ∪ C)) a p.
Proof.
  intros Hclosed Hrtc Hp.
  induction Hrtc as [a|a b p Hab Hbp IH].
  - split; [done | apply rtc_refl].
  - destruct (IH Hp) as [Hb Hwalk]. split.
    + intros Ha. apply Hb. by eapply Hclosed.
    + eapply rtc_l; [|exact Hwalk].
      destruct Hab as (? & ? & ?). repeat split; [done..|set_solver].
Qed.

Lemma cascade_loop fuel :
  cascade_result s0 fuel ->
  forall l X s',
    for_each l (cascade_body fuel) (clear_caches X s0) = (s', Ret tt) ->
    exists Y : gset Position,
      s' = clear_caches (X ∪ Y) s0 /\
      forall p, p ∈ Y ↔
        exists d, d ∈ l ∧ holds_memo s0 d ∧ (d ∉ X) ∧ rtc (walk s0 X) d p.
Proof.
  intros IHfuel l. induction l as [|d l IH]; intros X s' Heq.
  - inversion Heq. exists ∅. split; [f_equal; set_solver|].
    intros p. split; [set_solver|]. intros (d & Hd & _). by apply elem_of_nil in Hd.
  - simpl in Heq.
    destruct (bind_inv _ _ _ _ _ Heq) as [(s1 & [] & Hb & Hl)|[(e' & _ & ?)|[_ ?]]];
      [|done..].
    rewrite cascade_body_eq, Cell_GetCache_clear_caches in Hb.
    destruct (decide (d ∈ X)) as [HdX|HdX];
      [|destruct (Cell_GetCache s0 d) as [v|] eqn:Hcache].
    + inversion Hb; subst s1. destruct (IH _ _ Hl) as (Y & -> & HY).
      exists Y. split; [done|]. intros p. rewrite HY. split.
      * intros (d' & ? & ?). exists d'. split; [by apply list_elem_of_further|done].
      * intros (d' & [->|?]%elem_of_cons & ? & ? & ?); [done|]. by exists d'.
    + destruct (bind_inv _ _ _ _ _ Hb) as [(s2 & [] & Hrec & Hdes)|[(e' & _ & ?)|[_ ?]]];
        [|done..].
      destruct (IHfuel _ _ _ Hrec) as (Y1 & -> & HY1).
      unfold destroy_cache_of, modify_sheet in Hdes. inversion Hdes; subst s1.
      change (alter _ d ?m) with (alter erase_cache d m) in Hl.
      rewrite alter_erase_clear_caches in Hl.
      destruct (IH _ _ Hl) as (Y2 & -> & HY2).
      assert (Hmemo : holds_memo s0 d) by (unfold holds_memo; rewrite Hcache; eauto).
      assert (Hclosed : forall x y, x ∈ Y1 ∪ {[d]} -> walk s0 X x y -> y ∈ Y1 ∪ {[d]}).
      { intros x y Hx Hxy. apply elem_of_union. left. apply HY1.
        apply elem_of_union in Hx as [Hx|Hx].
        - apply HY1 in Hx. by eapply tc_r.
        - apply elem_of_singleton in Hx as ->. by apply tc_once. }
      exists (Y1 ∪ {[d]} ∪ Y2). split; [f_equal; set_solver|].
      intros p. split.
      * rewrite !elem_of_union, elem_of_singleton.
        intros [[Hp| ->]|Hp].
        -- exists d. repeat split; [apply list_elem_of_here|done..|].
           apply tc_rtc. by apply HY1.
        -- exists d. repeat split; [apply list_elem_of_here|done..|apply rtc_refl].
        -- apply HY2 in Hp as (d' & Hd' & ? & Hd'X & Hwalk).
           exists d'. repeat split; [by apply list_elem_of_further|done|set_solver|].
           eapply rtc_subrel; [|exact Hwalk].
           intros x y. apply walk_mono. set_solver.
      * intros (d' & Hd' & Hm' & Hd'X & Hwalk).
        destruct (decide (p ∈ Y1 ∪ {[d]})) as [Hin|Hout]; [set_solver|].
        apply elem_of_cons in Hd' as [->|Hd'].
        -- apply rtc_tc in Hwalk as [->|Htc]; [set_solver|].
           apply HY1 in Htc. set_solver.
        -- destruct (walk_avoid X (Y1 ∪ {[d]}) d' p Hclosed Hwalk Hout) as [Hd'C Hwalk'].
           apply elem_of_union. right. apply HY2.
           exists d'. repeat split; [done..|set_solver|].
           by replace (X ∪ Y1 ∪ {[d]}) with (X ∪ (Y1 ∪ {[d]})) by set_solver.
    + inversion Hb; subst s1. destruct (IH _ _ Hl) as (Y & -> & HY).
      exists Y. split; [done|]. intros p. rewrite HY. split.
      * intros (d' & ? & ?). exists d'. split; [by apply list_elem_of_further|done].
      * intros (d' & [->|?]%elem_of_cons & Hm & ? & ?); [|by exists d'].
        unfold holds_memo in Hm. rewrite Hcache in Hm. by destruct Hm.
Qed.

Lemma cascade_result_all fuel : cascade_result s0 fuel.
Proof.
  induction fuel as [|fuel IH]; intros c X s' Heq; [done|].
  rewrite DestroyCache_S, dependent_at_clear_caches in Heq.
  destruct (cascade_loop fuel IH _ _ _ Heq) as (Y & -> & HY).
  exists Y. split; [done|]. intros p. rewrite HY. split.
  - intros (d & Hd & Hm & HdX & Hwalk).
    eapply tc_rtc_r; [|exact Hwalk]. apply tc_once.
    repeat split; [|done..]. by apply elem_of_elements.
  - intros Htc. inversion Htc as [? ? Hstep|? d ? Hstep Htc']; subst.
    + exists p. destruct Hstep as (? & ? & ?).
      repeat split; [by apply elem_of_elements|done..|apply rtc_refl].
    + exists d. destruct Hstep as (? & ? & ?).
      repeat split; [by apply elem_of_elements|done..|by apply tc_rtc].
Qed.

End Walk.

(** What a cascade that returns has done: the memos it dropped are those of
    the cells that a walk from [cell] reaches, a walk that goes from a cell
    to a dependent that holds a memo; nothing else is changed. *)
Lemma DestroyCache_Ret fuel cell s s' :
  DestroyCache fuel cell s = (s', Ret tt) ->
  exists Y : gset Position,
    s' = clear_caches Y s /\ forall p, p ∈ Y ↔ tc (cascade_step s) cell p.
Proof.
  intros Heq. rewrite <- (clear_caches_empty s) in Heq at 1.
  destruct (cascade_result_all s fuel _ _ _ Heq) as (Y & -> & HY).
  exists Y. split; [f_equal; set_solver|].
  intros p. rewrite HY. split; apply tc_congruence with (f := id); intros x y Hxy.
  - apply walk_cascade_step in Hxy. by rewrite clear_caches_empty in Hxy.
  - apply walk_cascade_step. by rewrite clear_caches_empty.
Qed.

End Cascade.

(** ** The cascade returns where the walk is well founded *)

Section Cascade_termination.
Context `{Collab : Collaborators}.

Lemma cascade_body_fuel_le n m d :
  (n <= m)%nat -> refines (cascade_body n d) (cascade_body m d).
Proof.
  intros Hle. apply refines_bind; [apply refines_refl|]. intros s1.
  destruct (Cell_GetCache s1 d); [|apply refines_refl].
  apply refines_bind; [by apply DestroyCache_fuel_le | intros; apply refines_refl].
Qed.

Lemma DestroyCache_terminates_from s0 c :
  sn (cascade_step s0) c ->
  forall X, exists n s', DestroyCache n c (clear_caches X s0) = (s', Ret tt).
Proof.
  induction 1 as [c _ IH]. intros X.
  assert (Hloop : forall l, (forall d, d ∈ l -> d ∈ dependent_at s0 c) ->
            forall X, exists n s',
              for_each l (cascade_body n) (clear_caches X s0) = (s', Ret tt)).
  { clear X. intros l. induction l as [|d l IHl]; intros Hl X.
    - exists 0%nat, (clear_caches X s0). reflexivity.
    - assert (Hl' : forall d', d' ∈ l -> d' ∈ dependent_at s0 c).
      { intros d' Hd'. apply Hl. by apply list_elem_of_further. }
      destruct (Cell_GetCache (clear_caches X s0) d) as [v|] eqn:Hcache.
      + assert (Hstep : cascade_step s0 c d).
        { split; [apply Hl, list_elem_of_here|].
          rewrite Cell_GetCache_clear_caches in Hcache.
          destruct (decide (d ∈ X)); [done|]. unfold holds_memo. by rewrite Hcache. }
        destruct (IH d Hstep X) as (n1 & s1 & Hrec).
        destruct (cascade_result_all s0 n1 _ _ _ Hrec) as (Y1 & -> & _).
        destruct (IHl Hl' (X ∪ Y1 ∪ {[d]})) as (n2 & s2 & Hrest).
        exists (n1 `max` n2)%nat, s2. simpl.
        assert (Hb : cascade_body (n1 `max` n2) d (clear_caches X s0)
                     = (clear_caches (X ∪ Y1 ∪ {[d]}) s0, Ret tt)).
        { rewrite cascade_body_eq, Hcache.
          erewrite bind_Ret;
            [|eapply DestroyCache_fuel_le; [|exact Hrec|done]; lia].
          unfold destroy_cache_of, modify_sheet.
          change (alter _ d ?m) with (alter erase_cache d m).
          by rewrite alter_erase_clear_caches. }
        rewrite (bind_Ret _ _ _ _ _ Hb).
        eapply refines_for_each; [|exact Hrest|done].
        intros x. apply cascade_body_fuel_le. lia.
      + destruct (IHl Hl' X) as (n2 & s2 & Hrest).
        exists n2, s2. simpl.
        assert (Hb : cascade_body n2 d (clear_caches X s0)
                     = (clear_caches X s0, Ret tt)).
        { by rewrite cascade_body_eq, Hcache. }
        by rewrite (bind_Ret _ _ _ _ _ Hb). }
  destruct (Hloop (elements (dependent_at s0 c))
              (fun d Hd => proj1 (elem_of_elements _ _) Hd) X) as (n & s' & Hn).
  exists (S n), s'. by rewrite DestroyCache_S, dependent_at_clear_caches.
Qed.

(** Enough fuel: where no walk from [cell] goes on for ever, the cascade
    returns for every fuel from some bound on. *)
Lemma DestroyCache_terminates s cell :
  sn (cascade_step s) cell ->
  exists n s', forall fuel, (n <= fuel)%nat ->
    DestroyCache fuel cell s = (s', Ret tt).
Proof.
  intros Hsn.
  destruct (DestroyCache_terminates_from s cell Hsn ∅) as (n & s' & Hn).
  rewrite clear_caches_empty in Hn.
  exists n, s'. intros fuel Hle.
  by eapply DestroyCache_fuel_le; [exact Hle|exact Hn|].
Qed.

(** The converse: a cascade that returns walked a well-founded part. *)
Lemma sn_walk_past s0 X (C : gset Position) d :
  (forall c, c ∈ C -> sn (walk s0 X) c) ->
  sn (walk s0 (X ∪ C)) d -> sn (walk s0 X) d.
Proof.
  intros HC. induction 1 as [d _ IH].
  constructor. intros y Hy.
  destruct (decide (y ∈ C)) as [Hin|Hout]; [by apply HC|].
  apply IH. destruct Hy as (? & ? & ?).
  split; [done|]. split; [done|]. set_solver.
Qed.

Lemma cascade_returns_sn s0 fuel c X s' :
  DestroyCache fuel c (clear_caches X s0) = (s', Ret tt) -> sn (walk s0 X) c.
Proof.
  revert c X s'. induction fuel as [|fuel IHfuel]; intros c X s' Heq; [done|].
  rewrite DestroyCache_S, dependent_at_clear_caches in Heq.
  assert (Hloop : forall l X s',
            for_each l (cascade_body fuel) (clear_caches X s0) = (s', Ret tt) ->
            forall d, d ∈ l -> holds_memo s0 d -> d ∉ X -> sn (walk s0 X) d).
  { clear c X s' Heq. intros l. induction l as [|d0 l IH]; intros X s' Heq d Hd Hm HdX.
    - by apply elem_of_nil in Hd.
    - simpl in Heq.
      destruct (bind_inv _ _ _ _ _ Heq) as [(s1 & [] & Hb & Hl)|[(e' & _ & ?)|[_ ?]]];
        [|done..].
      rewrite cascade_body_eq, Cell_GetCache_clear_caches in Hb.
      destruct (decide (d0 ∈ X)) as [Hd0X|Hd0X];
        [|destruct (Cell_GetCache s0 d0) as [v|] eqn:Hcache].
      + inversion Hb; subst s1.
        apply elem_of_cons in Hd as [->|Hd]; [done|]. by eapply IH.
      + destruct (bind_inv _ _ _ _ _ Hb) as [(s2 & [] & Hrec & Hdes)|[(e' & _ & ?)|[_ ?]]];
          [|done..].
        pose proof (IHfuel _ _ _ Hrec) as Hsn0.
        destruct (cascade_result_all s0 fuel _ _ _ Hrec) as (Y1 & -> & HY1).
        unfold destroy_cache_of, modify_sheet in Hdes. inversion Hdes; subst s1.
        change (alter _ d0 ?m) with (alter erase_cache d0 m) in Hl.
        rewrite alter_erase_clear_caches in Hl.
        assert (HC : forall c, c ∈ Y1 ∪ {[d0]} -> sn (walk s0 X) c).
        { intros c [Hc| ->%elem_of_singleton]%elem_of_union; [|done].
          eapply sn_step_rtc; [exact Hsn0|]. by apply tc_rtc, HY1. }
        destruct (decide (d ∈ Y1 ∪ {[d0]})) as [Hin|Hout]; [by apply HC|].
        apply elem_of_cons in Hd as [->|Hd]; [set_solver|].
        apply (sn_walk_past s0 X (Y1 ∪ {[d0]})); [done|].
        replace (X ∪ (Y1 ∪ {[d0]})) with (X ∪ Y1 ∪ {[d0]}) by set_solver.
        eapply IH; [exact Hl|done..|set_solver].
      + inversion Hb; subst s1.
        apply elem_of_cons in Hd as [->|Hd]; [|by eapply IH].
        unfold holds_memo in Hm. rewrite Hcache in Hm. by destruct Hm. }
  constructor. intros d (Hd & Hm & HdX).
  eapply Hloop; [exact Heq| |done..]. by apply elem_of_elements.
Qed.

Lemma DestroyCache_Ret_sn fuel cell s s' :
  DestroyCache fuel cell s = (s', Ret tt) -> sn (cascade_step s) cell.
Proof.
  intros Heq. rewrite <- (clear_caches_empty s) in Heq at 1.
  apply cascade_returns_sn in Heq.
  eapply sn_subrel; [|exact Heq]. intros a b Hab.
  apply walk_cascade_step. by rewrite clear_caches_empty.
Qed.

(** A cell on a cycle of the relation is not strongly normalizing. *)
Lemma sn_no_cycle {A} (R : relation A) a b : sn R a -> R a b -> R b a -> False.
Proof.
  intros Hsn. revert b. induction Hsn as [a _ IH]. intros b Hab Hba.
  exact (IH b Hab a Hba Hab).
Qed.

End Cascade_termination.

(** ** The rebuilt edges *)

Section Edges.
Context `{Collab : Collaborators}.

Lemma impl_at_alter (f : Cell -> Cell) p (s : Sheet) q :
  (forall c, impl_ (f c) = impl_ c) -> impl_at (alter f p s) q = impl_at s q.
Proof.
  intros Hf. unfold impl_at.
  destruct (decide (p = q)) as [->|Hne];
    [rewrite lookup_alter_eq | by rewrite lookup_alter_ne].
  destruct (s !! q); simpl; [apply Hf | done].
Qed.

Lemma dependent_at_alter (f : Cell -> Cell) p (s : Sheet) q :
  (forall c, dependent_cells_ (f c) = dependent_cells_ c) ->
  dependent_at (alter f p s) q = dependent_at s q.
Proof.
  intros Hf. unfold dependent_at.
  destruct (decide (p = q)) as [->|Hne];
    [rewrite lookup_alter_eq | by rewrite lookup_alter_ne].
  destruct (s !! q); simpl; [apply Hf | done].
Qed.

Lemma is_Some_alter (f : Cell -> Cell) p (s : Sheet) q :
  is_Some (alter f p s !! q) <-> is_Some (s !! q).
Proof.
  destruct (decide (p = q)) as [->|Hne];
    [rewrite lookup_alter_eq | by rewrite lookup_alter_ne].
  by rewrite fmap_is_Some.
Qed.

(** The sheet after [set_impl]. *)
Lemma impl_at_set_impl this i (s : Sheet) q :
  is_Some (s !! this) ->
  impl_at (alter (fun c => mkCell i (referenced_cells_ c) (dependent_cells_ c)) this s) q
  = if decide (q = this) then i else impl_at s q.
Proof.
  intros [c Hc]. unfold impl_at.
  destruct (decide (q = this)) as [->|Hne].
  - by rewrite lookup_alter_eq, Hc.
  - by rewrite lookup_alter_ne.
Qed.

Lemma impl_at_materialize pos s q : impl_at (materialize pos s) q = impl_at s q.
Proof.
  unfold materialize, impl_at. destruct (s !! pos) eqn:Hpos; [done|].
  destruct (decide (pos = q)) as [->|Hne].
  - by rewrite lookup_insert_eq, Hpos.
  - by rewrite lookup_insert_ne.
Qed.

Lemma dependent_at_materialize pos s q :
  dependent_at (materialize pos s) q = dependent_at s q.
Proof.
  unfold materialize, dependent_at. destruct (s !! pos) eqn:Hpos; [done|].
  destruct (decide (pos = q)) as [->|Hne].
  - by rewrite lookup_insert_eq, Hpos.
  - by rewrite lookup_insert_ne.
Qed.

Lemma is_Some_materialize pos s q :
  is_Some (materialize pos s !! q) <-> q = pos \/ is_Some (s !! q).
Proof.
  unfold materialize. destruct (s !! pos) eqn:Hpos.
  - split; [by right|]. intros [->|?]; [by rewrite Hpos|done].
  - destruct (decide (pos = q)) as [->|Hne].
    + rewrite lookup_insert_eq. split; [by left | eauto].
    + rewrite lookup_insert_ne by done. split; [by right|].
      intros [->|?]; done.
Qed.

Lemma impl_at_link this pos s q : impl_at (link this pos s) q = impl_at s q.
Proof.
  unfold link. rewrite !impl_at_alter by done. apply impl_at_materialize.
Qed.

Lemma is_Some_link this pos s q :
  is_Some (link this pos s !! q) <-> q = pos \/ is_Some (s !! q).
Proof. unfold link. rewrite !is_Some_alter. apply is_Some_materialize. Qed.

Lemma dependent_at_link this pos s q :
  dependent_at (link this pos s) q =
    if decide (q = pos) then dependent_at s q ∪ {[this]} else dependent_at s q.
Proof.
  unfold link.
  destruct (decide (q = pos)) as [->|Hne].
  - unfold dependent_at at 1. rewrite lookup_alter_eq.
    destruct (decide (this = pos)) as [->|Hne];
      [rewrite lookup_alter_eq | rewrite lookup_alter_ne by done].
    + assert (is_Some (materialize pos s !! pos)) as [c Hc]
        by (apply is_Some_materialize; by left).
      rewrite Hc. simpl. f_equal.
      rewrite <- (dependent_at_materialize pos s pos). unfold dependent_at. by rewrite Hc.
    + assert (is_Some (materialize pos s !! pos)) as [c Hc]
        by (apply is_Some_materialize; by left).
      rewrite Hc. simpl. f_equal.
      rewrite <- (dependent_at_materialize pos s pos). unfold dependent_at. by rewrite Hc.
  - unfold dependent_at at 1. rewrite lookup_alter_ne by done.
    fold (dependent_at (alter (fun c => mkCell (impl_ c) (referenced_cells_ c ∪ {[pos]})
            (dependent_cells_ c)) this (materialize pos s)) q).
    rewrite dependent_at_alter by done. apply dependent_at_materialize.
Qed.

Lemma link_body_eq this pos s :
  (ref_cell <- GetCell pos ;;
   match ref_cell with
   | None => Sheet_SetCell_empty pos
   | Some _ => ret tt
   end ;;;
   update_referenced this (fun r => r ∪ {[pos]}) ;;;
   update_dependent pos (fun d => d ∪ {[this]})) s
  = (link this pos s, Ret tt).
Proof.
  unfold link, materialize, GetCell, Sheet_SetCell_empty,
    update_referenced, update_dependent, modify_sheet, bind, get_sheet, ret.
  by destruct (s !! pos) eqn:Hpos; rewrite ?Hpos.
Qed.

Lemma for_each_pure {A} (l : list A) (body : A -> M unit) (step : A -> Sheet -> Sheet) s :
  (forall x s, body x s = (step x s, Ret tt)) ->
  for_each l body s = (foldl (fun s x => step x s) s l, Ret tt).
Proof.
  intros Hbody. revert s. induction l as [|x l IH]; intros s; simpl; [done|].
  by rewrite (bind_Ret _ _ _ _ _ (Hbody x s)).
Qed.

Lemma foldl_link_spec this l s :
  let s' := foldl (fun s pos => link this pos s) s l in
  (forall q, impl_at s' q = impl_at s q) /\
  (forall q, is_Some (s !! q) -> is_Some (s' !! q)) /\
  (forall p q, q ∈ dependent_at s' p ↔ q ∈ dependent_at s p ∨ (q = this ∧ p ∈ l)).
Proof.
  revert s. induction l as [|pos l IH]; intros s; simpl.
  - split; [done|]. split; [done|]. intros p q. rewrite elem_of_nil. tauto.
  - destruct (IH (link this pos s)) as (Himpl & Hsome & Hdep).
    split; [|split].
    + intros q. by rewrite Himpl, impl_at_link.
    + intros q Hq. apply Hsome, is_Some_link. by right.
    + intros p q. rewrite Hdep, dependent_at_link, elem_of_cons.
      destruct (decide (p = pos)) as [->|Hne].
      * rewrite elem_of_union, elem_of_singleton. tauto.
      * tauto.
Qed.

Lemma foldl_alter_frame (f : Position -> Cell -> Cell) l (s : Sheet) :
  (forall x c, impl_ (f x c) = impl_ c /\ dependent_cells_ (f x c) = dependent_cells_ c) ->
  let s' := foldl (fun s x => alter (f x) x s) s l in
  (forall q, impl_at s' q = impl_at s q) /\
  (forall q, is_Some (s' !! q) <-> is_Some (s !! q)) /\
  (forall q, dependent_at s' q = dependent_at s q).
Proof.
  intros Hf. revert s. induction l as [|x l IH]; intros s; simpl; [done|].
  destruct (IH (alter (f x) x s)) as (Himpl & Hsome & Hdep).
  split; [|split]; intros q.
  - rewrite Himpl. apply impl_at_alter. intros c. apply Hf.
  - rewrite Hsome. apply is_Some_alter.
  - rewrite Hdep. apply dependent_at_alter. intros c. apply Hf.
Qed.

Lemma unlink_spec this s :
  (forall q, impl_at (unlink this s) q = impl_at s q) /\
  (forall q, is_Some (unlink this s !! q) <-> is_Some (s !! q)) /\
  (forall q, dependent_at (unlink this s) q = dependent_at s q).
Proof.
  unfold unlink.
  destruct (foldl_alter_frame
    (fun x c => mkCell (impl_ c) (referenced_cells_ c ∖ {[this]}) (dependent_cells_ c))
    (elements (dependent_at s this)) s ltac:(done)) as (Himpl & Hsome & Hdep).
  split; [|split]; intros q.
  - by rewrite impl_at_alter, Himpl.
  - by rewrite is_Some_alter, Hsome.
  - by rewrite dependent_at_alter, Hdep.
Qed.

(** [UpdateDependencies] as a function of the sheet. *)
Lemma UpdateDependencies_eq this s :
  UpdateDependencies this s =
    (foldl (fun s pos => link this pos s) (unlink this s)
       (Cell_GetReferencedCells (unlink this s) this), Ret tt).
Proof.
  unfold UpdateDependencies. rewrite bind_get_sheet.
  erewrite bind_Ret; [|by apply for_each_pure with
    (step := fun cell s => alter (fun c =>
       mkCell (impl_ c) (referenced_cells_ c ∖ {[this]}) (dependent_cells_ c)) cell s)].
  unfold update_referenced at 1. rewrite bind_modify_sheet.
  fold (unlink this s). rewrite bind_get_sheet.
  apply for_each_pure. intros pos s1. apply link_body_eq.
Qed.

(** The sheet after the content is installed and the edges are rebuilt. *)
Lemma commit_spec this impl s :
  is_Some (s !! this) ->
  exists s1,
    (set_impl this impl ;;; UpdateDependencies this) s = (s1, Ret tt) /\
    (forall q, impl_at s1 q = if decide (q = this) then impl else impl_at s q) /\
    (forall q, is_Some (s !! q) -> is_Some (s1 !! q)) /\
    (forall p q, q ∈ dependent_at s1 p ↔
       q ∈ dependent_at s p ∨ (q = this ∧ p ∈ Impl_GetReferencedCells impl)).
Proof.
  intros Hthis.
  set (s0 := alter (fun c => mkCell impl (referenced_cells_ c) (dependent_cells_ c)) this s).
  assert (Hs0 : set_impl this impl s = (s0, Ret tt)) by done.
  rewrite (bind_Ret _ _ _ _ _ Hs0), UpdateDependencies_eq.
  eexists. split; [reflexivity|].
  destruct (unlink_spec this s0) as (Himpl1 & Hsome1 & Hdep1).
  assert (Hrefs : Cell_GetReferencedCells (unlink this s0) this
                  = Impl_GetReferencedCells impl).
  { unfold Cell_GetReferencedCells. rewrite Himpl1. unfold s0.
    rewrite impl_at_set_impl by done. by rewrite decide_True. }
  rewrite Hrefs.
  destruct (foldl_link_spec this (Impl_GetReferencedCells impl) (unlink this s0))
    as (Himpl2 & Hsome2 & Hdep2).
  split; [|split].
  - intros q. rewrite Himpl2, Himpl1. unfold s0. by apply impl_at_set_impl.
  - intros q Hq. apply Hsome2, Hsome1. unfold s0. by apply is_Some_alter.
  - intros p q. rewrite Hdep2, Hdep1. unfold s0. by rewrite dependent_at_alter.
Qed.

End Edges.

(** ** The cycle search *)

Section Cycle_search.
Context `{Collab : Collaborators}.

Lemma refs_of_lookup (s : Sheet) pos c :
  s !! pos = Some c ->
  Impl_GetReferencedCells (impl_ c) = Cell_GetReferencedCells s pos.
Proof. intros Hc. unfold Cell_GetReferencedCells, impl_at. by rewrite Hc. Qed.

Lemma refs_of_absent (s : Sheet) pos :
  s !! pos = None -> Cell_GetReferencedCells s pos = [].
Proof. intros Hc. unfold Cell_GetReferencedCells, impl_at. by rewrite Hc. Qed.

Section Search.
Variables (s : Sheet) (this : Position).

Lemma check_positions_throw_sound rec :
  (forall v l, read_only (rec v l)) ->
  throw_sound s this rec -> throw_sound s this (check_positions rec this).
Proof.
  intros Hro Hrec visited positions. revert visited.
  induction positions as [|pos rest IH]; intros visited s' e; simpl.
  - unfold ret. congruence.
  - rewrite (bind_Ret _ _ _ _ _ (GetCell_eq pos s)).
    assert (Hrest : forall v, check_positions rec this v rest s = (s', Throw e) ->
              exists p, p ∈ pos :: rest ∧ rtc (ref_step s) p this).
    { intros v Hv. destruct (IH _ _ _ Hv) as (p & Hp & Hreach).
      exists p. split; [by apply list_elem_of_further | done]. }
    destruct (s !! pos) as [c|] eqn:Hc; [|apply Hrest].
    case_decide as Hthis.
    { intros _. exists pos. split; [apply list_elem_of_here|]. subst pos. apply rtc_refl. }
    case_decide; [apply Hrest|].
    intros Heq.
    destruct (bind_inv _ _ _ _ _ Heq) as [(s1 & a & Hm & Hk)|[(e' & Hm & He)|[_ ?]]];
      [| |done].
    + assert (s1 = s) as ->.
      { destruct (Impl_GetReferencedCells (impl_ c));
          [by inversion Hm | by eapply Hro]. }
      by eapply Hrest.
    + destruct (Impl_GetReferencedCells (impl_ c)) as [|q l] eqn:Hrefs;
        [by inversion Hm|].
      destruct (Hrec _ _ _ _ Hm) as (p & Hp & Hreach).
      exists pos. split; [apply list_elem_of_here|].
      eapply rtc_l; [|exact Hreach].
      unfold ref_step. rewrite <- (refs_of_lookup _ _ _ Hc), Hrefs. done.
Qed.

Lemma CheckCircularDependencyImpl_throw_sound fuel :
  throw_sound s this (CheckCircularDependencyImpl fuel this).
Proof.
  induction fuel as [|fuel IH].
  - intros visited positions s' e. simpl. unfold out_of_fuel. congruence.
  - intros visited positions s' e. simpl.
    apply check_positions_throw_sound; [|done].
    intros v l. apply CheckCircularDependencyImpl_read_only.
Qed.

Lemma clean_mono p V V' : V ⊆ V' -> clean s this p V -> clean s this p V'.
Proof. intros Hsub [? Hin]. split; [done|]. intros ?. apply Hsub. by apply Hin. Qed.

Lemma closed_no_reach V p t :
  closed s this V -> clean s this p V -> rtc (ref_step s) p t -> t <> this.
Proof.
  intros Hclosed Hp Hrtc. induction Hrtc as [p|p q t Hpq _ IH]; [apply Hp|].
  apply IH. destruct Hp as [_ Hin].
  assert (Hsome : is_Some (s !! p)).
  { destruct (s !! p) eqn:Hlook; [eauto|].
    unfold ref_step in Hpq. rewrite refs_of_absent in Hpq by done.
    by apply elem_of_nil in Hpq. }
  by apply (Hclosed p (Hin Hsome)).
Qed.

Lemma check_positions_ret_complete rec :
  is_Some (s !! this) ->
  (forall v l, read_only (rec v l)) ->
  ret_complete s this rec -> ret_complete s this (check_positions rec this).
Proof.
  intros Hthis Hro Hrec V positions. revert V.
  induction positions as [|pos rest IH]; intros V s' V' HV; simpl.
  - intros [= _ <-]. split; [done|]. split; [done|].
    intros p Hp. by apply elem_of_nil in Hp.
  - rewrite (bind_Ret _ _ _ _ _ (GetCell_eq pos s)).
    destruct (s !! pos) as [c|] eqn:Hc.
    + case_decide as Hpos; [unfold throw; congruence|].
      case_decide as Hvis.
      * intros Heq. destruct (IH _ _ _ HV Heq) as (Hcl & Hsub & Hall).
        split; [done|]. split; [done|].
        intros p [->|Hp]%elem_of_cons; [|by apply Hall].
        split; [done|]. intros _. by apply Hsub.
      * intros Heq.
        destruct (bind_inv _ _ _ _ _ Heq) as [(s1 & V1 & Hm & Hk)|[(e' & _ & ?)|[_ ?]]];
          [|done..].
        assert (s1 = s ∧ closed s this V1 ∧ V ⊆ V1 ∧
                forall q, q ∈ Impl_GetReferencedCells (impl_ c) -> clean s this q V1)
          as (-> & HV1 & Hsub1 & Hrefs).
        { destruct (Impl_GetReferencedCells (impl_ c)) as [|q l] eqn:Hl.
          - inversion Hm; subst. split; [done|]. split; [done|]. split; [done|].
            intros q Hq. by apply elem_of_nil in Hq.
          - pose proof (Hro _ _ _ _ _ Hm) as ->.
            destruct (Hrec _ _ _ _ HV Hm) as (? & ? & ?). done. }
        assert (HV2 : closed s this (V1 ∪ {[pos]})).
        { intros v [Hv| ->%elem_of_singleton]%elem_of_union.
          - destruct (HV1 v Hv) as [? Hsucc]. split; [done|].
            intros q Hq. eapply clean_mono; [|by apply Hsucc]. set_solver.
          - split; [done|]. intros q Hq.
            eapply clean_mono; [|apply Hrefs]; [set_solver|].
            unfold ref_step in Hq. by rewrite (refs_of_lookup _ _ _ Hc). }
        destruct (IH _ _ _ HV2 Hk) as (Hcl & Hsub & Hall).
        split; [done|]. split; [set_solver|].
        intros p [->|Hp]%elem_of_cons; [|by apply Hall].
        split; [done|]. intros _. set_solver.
    + intros Heq. destruct (IH _ _ _ HV Heq) as (Hcl & Hsub & Hall).
      split; [done|]. split; [done|].
      intros p [->|Hp]%elem_of_cons; [|by apply Hall].
      split.
      * intros ->. rewrite Hc in Hthis. by destruct Hthis.
      * rewrite Hc. by intros [? ?].
Qed.

Lemma CheckCircularDependencyImpl_ret_complete fuel :
  is_Some (s !! this) ->
  ret_complete s this (CheckCircularDependencyImpl fuel this).
Proof.
  intros Hthis. induction fuel as [|fuel IH].
  - intros V positions s' V' _. simpl. unfold out_of_fuel. congruence.
  - intros V positions s' V'. simpl.
    apply check_positions_ret_complete; [done| |done].
    intros v l. apply CheckCircularDependencyImpl_read_only.
Qed.

Lemma enough_le n m l : (n <= m)%nat -> enough s this n l -> enough s this m l.
Proof.
  intros Hle Hn V Hm.
  destruct (CheckCircularDependencyImpl n this V l s) as [s1 r] eqn:Heq.
  specialize (Hn V). rewrite Heq in Hn. simpl in Hn.
  pose proof (CheckCircularDependencyImpl_fuel_le n m this V l Hle _ _ _ Heq Hn) as Heq'.
  by rewrite Heq' in Hm.
Qed.

Lemma enough_positions m positions :
  (forall p, p ∈ positions -> enough s this m (Cell_GetReferencedCells s p)) ->
  enough s this (S m) positions.
Proof.
  intros Hall V. simpl. revert V.
  induction positions as [|pos rest IH]; intros V; simpl; [done|].
  assert (Hrest : forall V, (check_positions (CheckCircularDependencyImpl m this)
                    this V rest s).2 <> OutOfFuel).
  { apply IH. intros p Hp. apply Hall. by apply list_elem_of_further. }
  rewrite (bind_Ret _ _ _ _ _ (GetCell_eq pos s)).
  destruct (s !! pos) as [c|] eqn:Hc; [|apply Hrest].
  case_decide; [done|]. case_decide; [apply Hrest|].
  rewrite (refs_of_lookup _ _ _ Hc).
  destruct (Cell_GetReferencedCells s pos) as [|q l] eqn:Hl.
  - rewrite (bind_Ret _ _ s s V) by done. apply Hrest.
  - specialize (Hall pos (list_elem_of_here _ _) V). rewrite Hl in Hall.
    destruct (CheckCircularDependencyImpl m this V (q :: l) s) as [s1 [V1|e|]] eqn:Hrec;
      [| |done].
    + pose proof (CheckCircularDependencyImpl_read_only _ _ _ _ _ _ _ Hrec) as ->.
      rewrite (bind_Ret _ _ _ _ _ Hrec). apply Hrest.
    + by rewrite (bind_Throw _ _ _ _ _ Hrec).
Qed.

Lemma enough_collect (l : list Position) :
  (forall p, p ∈ l -> exists n, enough s this n (Cell_GetReferencedCells s p)) ->
  exists m, forall p, p ∈ l -> enough s this m (Cell_GetReferencedCells s p).
Proof.
  induction l as [|p l IH]; intros Hall.
  - exists 0%nat. intros p Hp. by apply elem_of_nil in Hp.
  - destruct (Hall p (list_elem_of_here _ _)) as [n Hn].
    destruct IH as [m Hm].
    { intros q Hq. apply Hall. by apply list_elem_of_further. }
    exists (n `max` m)%nat. intros q [->|Hq]%elem_of_cons.
    + eapply enough_le; [|exact Hn]. lia.
    + eapply enough_le; [|by apply Hm]. lia.
Qed.

Lemma sn_enough p :
  sn (ref_step s) p -> exists n, enough s this n (Cell_GetReferencedCells s p).
Proof.
  induction 1 as [p _ IH].
  destruct (enough_collect (Cell_GetReferencedCells s p)) as [m Hm].
  { intros q Hq. by apply IH. }
  exists (S m). by apply enough_positions.
Qed.

Lemma sn_enough_list positions :
  (forall p, p ∈ positions -> sn (ref_step s) p) ->
  exists n, enough s this n positions.
Proof.
  intros Hsn. destruct (enough_collect positions) as [m Hm].
  { intros p Hp. by apply sn_enough, Hsn. }
  exists (S m). by apply enough_positions.
Qed.

(** The search decides whether a candidate position reaches [this]. *)
Lemma CheckCircularDependency_decides ref_cells :
  is_Some (s !! this) ->
  (forall p, p ∈ ref_cells -> sn (ref_step s) p) ->
  exists n, forall fuel, (n <= fuel)%nat ->
    ((exists p, p ∈ ref_cells ∧ rtc (ref_step s) p this) ->
       CheckCircularDependency fuel this ref_cells s
       = (s, Throw (CircularDependencyException "Circular cell"))) ∧
    (~ (exists p, p ∈ ref_cells ∧ rtc (ref_step s) p this) ->
       CheckCircularDependency fuel this ref_cells s = (s, Ret tt)).
Proof.
  intros Hthis Hsn. destruct (sn_enough_list ref_cells Hsn) as [n Hn].
  exists n. intros fuel Hle.
  pose proof (enough_le _ _ _ Hle Hn ∅) as Hfuel.
  unfold CheckCircularDependency.
  destruct (CheckCircularDependencyImpl fuel this ∅ ref_cells s) as [s1 [V|e|]] eqn:Heq;
    [| |done]; clear Hfuel;
    pose proof (CheckCircularDependencyImpl_read_only _ _ _ _ _ _ _ Heq) as ->.
  - assert (Hclosed : closed s this ∅) by (intros v Hv; set_solver).
    destruct (CheckCircularDependencyImpl_ret_complete fuel Hthis _ _ _ _ Hclosed Heq)
      as (HV & _ & Hall).
    split.
    + intros (p & Hp & Hreach). exfalso.
      by apply (closed_no_reach V p this HV (Hall p Hp) Hreach).
    + intros _. by rewrite (bind_Ret _ _ _ _ _ Heq).
  - pose proof (CheckCircularDependencyImpl_only_circular _ _ _ _ _ _ _ Heq) as ->.
    split.
    + intros _. by rewrite (bind_Throw _ _ _ _ _ Heq).
    + intros Hno. exfalso. apply Hno.
      by eapply CheckCircularDependencyImpl_throw_sound.
Qed.

(** With any fuel, a circular exception names a real path. *)
Lemma CheckCircularDependency_Throw fuel ref_cells s' e :
  CheckCircularDependency fuel this ref_cells s = (s', Throw e) ->
  exists p, p ∈ ref_cells ∧ rtc (ref_step s) p this.
Proof.
  intros Heq.
  destruct (bind_inv _ _ _ _ _ Heq) as [(s1 & a & _ & Hk)|[(e' & Hm & He)|[_ ?]]];
    [by inversion Hk | | done].
  by eapply CheckCircularDependencyImpl_throw_sound.
Qed.

End Search.
End Cycle_search.

(** ** A successful [Cell::Set] *)

Section Set_success.
Context `{Collab : Collaborators}.

Lemma make_impl_no_cache text s s' impl :
  make_impl text s = (s', Ret impl) -> Impl_GetCache impl = None.
Proof.
  rewrite make_impl_eq. intros [= _ Himpl].
  destruct text as [|c rest]; [by inversion Himpl|].
  destruct (is_formula_input _); [|by inversion Himpl].
  destruct (ParseFormulaAST rest); by inversion Himpl.
Qed.

Lemma make_impl_state text s s' r : make_impl text s = (s', r) -> s' = s.
Proof. rewrite make_impl_eq. by intros [= <- _]. Qed.

Lemma tc_last {A} (R : relation A) x y : tc R x y -> exists z, R z y.
Proof. induction 1 as [x y Hxy|x y z _ _ IH]; [eauto | exact IH]. Qed.

(** After the commit the steps of the cascade are those of [cascade_walk]. *)
Lemma cascade_step_commit this impl s s1 :
  Impl_GetCache impl = None ->
  (forall q, impl_at s1 q = if decide (q = this) then impl else impl_at s q) ->
  (forall p q, q ∈ dependent_at s1 p ↔
     q ∈ dependent_at s p ∨ (q = this ∧ p ∈ Impl_GetReferencedCells impl)) ->
  forall a b, cascade_step s1 a b <-> cascade_walk s this a b.
Proof.
  intros Hnone Himpl Hdep a b.
  unfold cascade_step, cascade_walk, holds_memo, Cell_GetCache.
  rewrite Hdep, Himpl.
  destruct (decide (b = this)) as [->|Hne].
  - rewrite Hnone. split; [|tauto]. intros [_ Hsome]. by destruct Hsome.
  - tauto.
Qed.

(** The steps of a [Set] that returned. *)
Lemma Cell_Set_Ret_steps fuel this text s s' :
  Cell_Set fuel this text s = (s', Ret tt) ->
  exists impl s1,
    make_impl text s = (s, Ret impl) ∧
    CheckCircularDependency fuel this (Impl_GetReferencedCells impl) s = (s, Ret tt) ∧
    (set_impl this impl ;;; UpdateDependencies this) s = (s1, Ret tt) ∧
    DestroyCache fuel this s1 = (s', Ret tt).
Proof.
  intros Heq. unfold Cell_Set in Heq.
  destruct (bind_inv _ _ _ _ _ Heq) as [(s0 & impl & Hmk & Hk)|[(e' & _ & ?)|[_ ?]]];
    [|done..].
  pose proof (make_impl_state _ _ _ _ Hmk) as ->.
  destruct (bind_inv _ _ _ _ _ Hk) as [(s0 & [] & Hchk & Hk')|[(e' & _ & ?)|[_ ?]]];
    [|done..].
  pose proof (CheckCircularDependency_read_only _ _ _ _ _ _ Hchk) as ->.
  unfold set_impl in *. rewrite bind_modify_sheet in Hk'.
  destruct (bind_inv _ _ _ _ _ Hk') as [(s2 & [] & Hupd & Hdc)|[(e' & _ & ?)|[_ ?]]];
    [|done..].
  exists impl, s2. split; [done|]. split; [done|]. split; [|done].
  rewrite bind_modify_sheet. exact Hupd.
Qed.

(** A [Set] that returns has walked a well-founded part of the dependents:
    on a cycle of memo-holding dependents it does not return. *)
Lemma Cell_Set_Ret_sn fuel this text s s' :
  is_Some (s !! this) ->
  Cell_Set fuel this text s = (s', Ret tt) ->
  sn (cascade_walk s this) this.
Proof.
  intros Hthis Heq.
  destruct (Cell_Set_Ret_steps _ _ _ _ _ Heq) as (impl & s1 & Hmk & _ & Hcommit & Hdc).
  destruct (commit_spec this impl s Hthis) as (s1' & Hcommit' & Himpl & _ & Hdep).
  rewrite Hcommit in Hcommit'. injection Hcommit' as <-.
  pose proof (make_impl_no_cache _ _ _ _ Hmk) as Hnone.
  eapply sn_subrel; [|by eapply DestroyCache_Ret_sn].
  intros a b Hab. by apply (cascade_step_commit this impl s s1).
Qed.

(** Input that is no formula input never makes [Set] throw. *)
Lemma Cell_Set_text_no_throw fuel this text s s' e :
  is_formula_input text = false ->
  Cell_Set fuel this text s <> (s', Throw e).
Proof.
  intros Hnf Heq.
  assert (exists impl, make_impl text s = (s, Ret impl) ∧
                       Impl_GetReferencedCells impl = []) as (impl & Hmk & Hrefs).
  { rewrite make_impl_eq. destruct text as [|c rest]; [by eexists|].
    rewrite Hnf. by eexists. }
  unfold Cell_Set in Heq. rewrite (bind_Ret _ _ _ _ _ Hmk), Hrefs in Heq.
  revert Heq. apply no_throw_bind.
  - intros s0 s0' e0 Hchk.
    apply CheckCircularDependency_Throw in Hchk as (p & Hp & _).
    by apply elem_of_nil in Hp.
  - intros _. apply no_throw_bind; [apply no_throw_modify_sheet|intros _].
    apply no_throw_bind; [apply UpdateDependencies_no_throw|intros _].
    apply DestroyCache_no_throw.
Qed.

(** The parts of a [Set] that returned. *)
Lemma Cell_Set_Ret fuel this text s s' :
  is_Some (s !! this) ->
  Cell_Set fuel this text s = (s', Ret tt) ->
  exists impl (Y : gset Position),
    make_impl text s = (s, Ret impl) ∧
    CheckCircularDependency fuel this (Impl_GetReferencedCells impl) s = (s, Ret tt) ∧
    (forall q, is_Some (s !! q) -> is_Some (s' !! q)) ∧
    (forall q, impl_at s' q =
       if decide (q = this) then impl
       else if decide (q ∈ Y) then Impl_DestroyCache (impl_at s q)
       else impl_at s q) ∧
    (forall p q, q ∈ dependent_at s' p ↔
       q ∈ dependent_at s p ∨ (q = this ∧ p ∈ Impl_GetReferencedCells impl)) ∧
    (forall p, p ∈ Y ↔ tc (cascade_walk s this) this p).
Proof.
  intros Hthis Heq. unfold Cell_Set in Heq.
  destruct (bind_inv _ _ _ _ _ Heq) as [(s0 & impl & Hmk & Hk)|[(e' & _ & ?)|[_ ?]]];
    [|done..].
  pose proof (make_impl_state _ _ _ _ Hmk) as ->.
  destruct (bind_inv _ _ _ _ _ Hk) as [(s0 & [] & Hchk & Hk')|[(e' & _ & ?)|[_ ?]]];
    [|done..].
  pose proof (CheckCircularDependency_read_only _ _ _ _ _ _ Hchk) as ->.
  destruct (commit_spec this impl s Hthis) as (s1 & Hcommit & Himpl & Hsome & Hdep).
  assert (Hdc : DestroyCache fuel this s1 = (s', Ret tt)).
  { unfold set_impl in Hk'. rewrite bind_modify_sheet in Hk'.
    unfold set_impl in Hcommit. rewrite bind_modify_sheet in Hcommit.
    destruct (bind_inv _ _ _ _ _ Hk') as [(s2 & [] & Hupd & Hdc)|[(e' & _ & ?)|[_ ?]]];
      [|done..].
    rewrite Hcommit in Hupd. by inversion Hupd; subst s2. }
  destruct (DestroyCache_Ret _ _ _ _ Hdc) as (Y & -> & HY).
  pose proof (make_impl_no_cache _ _ _ _ Hmk) as Hnone.
  pose proof (cascade_step_commit this impl s s1 Hnone Himpl Hdep) as Hstep.
  assert (HY' : forall p, p ∈ Y ↔ tc (cascade_walk s this) this p).
  { intros p. rewrite HY.
    split; apply tc_congruence with (f := id); intros x y Hxy; by apply Hstep. }
  assert (HthisY : this ∉ Y).
  { intros Hin. apply HY' in Hin. apply tc_last in Hin as (z & _ & Hne & _). done. }
  exists impl, Y. split; [done|]. split; [done|]. split; [|split; [|split; [|done]]].
  - intros q Hq. apply Hsome in Hq as [c Hc].
    rewrite lookup_clear_caches, Hc. simpl. eauto.
  - intros q. rewrite impl_at_clear_caches, Himpl.
    destruct (decide (q = this)) as [->|Hne].
    + by rewrite decide_False.
    + done.
  - intros p q. by rewrite dependent_at_clear_caches, Hdep.
Qed.

(** When [Set] returns: the candidate is built, no candidate position
    reaches the cell, and neither the search nor the cascade goes on for
    ever. *)
Lemma Cell_Set_succeeds this text s impl :
  is_Some (s !! this) ->
  make_impl text s = (s, Ret impl) ->
  (forall p, p ∈ Impl_GetReferencedCells impl -> sn (ref_step s) p) ->
  ~ (exists p, p ∈ Impl_GetReferencedCells impl ∧ rtc (ref_step s) p this) ->
  sn (cascade_walk s this) this ->
  exists n s', forall fuel, (n <= fuel)%nat ->
    Cell_Set fuel this text s = (s', Ret tt).
Proof.
  intros Hthis Hmk Hsn Hno Hwalk.
  destruct (CheckCircularDependency_decides s this _ Hthis Hsn) as [n1 Hn1].
  destruct (commit_spec this impl s Hthis) as (s1 & Hcommit & Himpl & Hsome & Hdep).
  pose proof (make_impl_no_cache _ _ _ _ Hmk) as Hnone.
  pose proof (cascade_step_commit this impl s s1 Hnone Himpl Hdep) as Hstep.
  destruct (DestroyCache_terminates s1 this) as (n2 & s' & Hn2).
  { eapply sn_subrel; [|exact Hwalk]. intros a b Hab. by apply Hstep. }
  exists (n1 `max` n2)%nat, s'. intros fuel Hle.
  unfold Cell_Set. rewrite (bind_Ret _ _ _ _ _ Hmk).
  erewrite bind_Ret; [|apply Hn1; [lia|done]].
  unfold set_impl in *. rewrite bind_modify_sheet in *.
  rewrite (bind_Ret _ _ _ _ _ Hcommit). apply Hn2. lia.
Qed.

End Set_success.

(** ** Reading a value *)

Section Reading.
Context `{Collab : Collaborators}.

Lemma caches_only_read_only {A} (m : M A) : read_only m -> caches_only m.
Proof. intros Hro s s' r Heq q. by rewrite (Hro _ _ _ Heq). Qed.

Lemma caches_only_bind {A B} (m : M A) (k : A -> M B) :
  caches_only m -> (forall a, caches_only (k a)) -> caches_only (bind m k).
Proof.
  intros Hm Hk s s' r Heq q.
  destruct (bind_inv _ _ _ _ _ Heq) as [(s1 & a & Hm' & Hk')|[(e' & Hm' & _)|[Hm' _]]].
  - rewrite (Hk _ _ _ _ Hk'). by eapply Hm.
  - by eapply Hm.
  - by eapply Hm.
Qed.

Lemma caches_only_catch {A} (m : M A) (h : FormulaError -> M A) :
  caches_only m -> (forall fe, caches_only (h fe)) ->
  caches_only (catch_FormulaError m h).
Proof.
  intros Hm Hh s s' r. unfold catch_FormulaError.
  destruct (m s) as [s1 r1] eqn:Hms. intros Heq q.
  assert (Hs1 : erase_cache <$> s1 !! q = erase_cache <$> s !! q) by by eapply Hm.
  destruct r1 as [a|e|]; try (inversion Heq; by subst).
  destruct e; try (inversion Heq; by subst).
  rewrite <- Hs1. by eapply Hh.
Qed.

Lemma caches_only_set_cache p v : caches_only (set_cache p v).
Proof.
  intros s s' r [= <- _] q.
  destruct (decide (p = q)) as [->|Hne];
    [rewrite lookup_alter_eq | by rewrite lookup_alter_ne].
  destruct (s !! q) as [[[] ? ?]|]; reflexivity.
Qed.

Ltac caches_only_step :=
  first
    [ apply caches_only_read_only;
      first [ apply read_only_ret | apply read_only_throw | apply read_only_out_of_fuel
            | apply read_only_get_sheet | apply read_only_GetCell ]
    | apply caches_only_set_cache
    | apply caches_only_bind; [|intros ?]
    | match goal with
      | |- caches_only (match ?x with _ => _ end) => destruct x
      | |- caches_only (if ?x then _ else _) => destruct x
      end ].

Lemma caches_only_getters v :
  caches_only (get_double v) ∧ caches_only (get_string v) ∧
  caches_only (get_FormulaError v).
Proof.
  by destruct v; repeat split; apply caches_only_read_only; intros ? ? ? [= <- _].
Qed.

Lemma caches_only_CellImpl GetValue pos :
  (forall p, caches_only (GetValue p)) -> caches_only (CellImpl GetValue pos).
Proof.
  intros HGV. unfold CellImpl.
  repeat first
    [ apply HGV
    | apply caches_only_getters
    | caches_only_step ].
Qed.

Lemma caches_only_run_Execute resolver e :
  (forall p, caches_only (resolver p)) -> caches_only (run_Execute resolver e).
Proof.
  intros Hres. induction e as [r|fe|pos k IH]; simpl.
  - caches_only_step.
  - caches_only_step.
  - apply caches_only_bind; [apply Hres | intros v; apply IH].
Qed.

Lemma caches_only_Formula_Evaluate GetValue ast :
  (forall p, caches_only (GetValue p)) ->
  caches_only (Formula_Evaluate GetValue ast).
Proof.
  intros HGV. apply caches_only_catch.
  - apply caches_only_bind; [|intros; caches_only_step].
    apply caches_only_run_Execute. intros p. by apply caches_only_CellImpl.
  - intros fe. caches_only_step.
Qed.

Lemma caches_only_Cell_GetValue fuel this : caches_only (Cell_GetValue fuel this).
Proof.
  revert this. induction fuel as [|fuel IH]; intros this; simpl.
  - caches_only_step.
  - apply caches_only_bind; [caches_only_step|]. intros s0.
    destruct (impl_at s0 this) as [|t|ast cache].
    + caches_only_step.
    + unfold TextImpl_GetValue. destruct t; caches_only_step.
    + apply caches_only_bind; [|intros; caches_only_step].
      destruct cache; [caches_only_step|].
      apply caches_only_bind; [by apply caches_only_Formula_Evaluate|].
      intros v. repeat caches_only_step.
Qed.

(** A value that was read is read again, from the memo for a formula, at
    no cost and without a change of the sheet. *)
Lemma Cell_GetValue_again fuel this s s' v :
  Cell_GetValue fuel this s = (s', Ret v) ->
  forall m, Cell_GetValue (S m) this s' = (s', Ret v).
Proof.
  destruct fuel as [|fuel]; [done|]. simpl. rewrite bind_get_sheet.
  destruct (impl_at s this) as [|t|ast cache] eqn:Himpl.
  - intros [= <- <-] m. simpl. by rewrite bind_get_sheet, Himpl.
  - destruct t as [|c rest]; [done|]. intros [= <- <-] m.
    simpl. by rewrite bind_get_sheet, Himpl.
  - destruct cache as [fv|].
    + intros [= <- <-] m. simpl. by rewrite bind_get_sheet, Himpl.
    + intros Heq m.
      destruct (bind_inv _ _ _ _ _ Heq) as [(s2 & fv & Hm & Hk)|[(e' & _ & ?)|[_ ?]]];
        [|done..].
      inversion Hk; subst s2 v. clear Hk.
      destruct (bind_inv _ _ _ _ _ Hm) as [(s1 & fv' & Hev & Hk)|[(e' & _ & ?)|[_ ?]]];
        [|done..].
      unfold set_cache in Hk. rewrite bind_modify_sheet in Hk.
      inversion Hk; subst s' fv'. clear Hk.
      pose proof (caches_only_Formula_Evaluate _ ast
        (caches_only_Cell_GetValue fuel) _ _ _ Hev this) as Hsame.
      unfold impl_at in Himpl.
      destruct (s !! this) as [c|] eqn:Hc; [|done].
      destruct (s1 !! this) as [c1|] eqn:Hc1; [|done].
      simpl in Hsame. injection Hsame as Hi _ _. rewrite Himpl in Hi.
      destruct (impl_ c1) as [|?|ast1 cache1] eqn:Hi1; try done.
      simpl in Hi. injection Hi as ->.
      simpl. rewrite bind_get_sheet. unfold impl_at.
      rewrite lookup_alter_eq, Hc1. simpl. by rewrite Hi1.
Qed.

(** The value of a cell whose content is text or nothing. *)
Lemma Cell_GetValue_Empty fuel this s :
  impl_at s this = EmptyImpl ->
  Cell_GetValue (S fuel) this s = (s, Ret (VString "")).
Proof. intros Himpl. simpl. by rewrite bind_get_sheet, Himpl. Qed.

Lemma Cell_GetValue_Text fuel this s c rest :
  impl_at s this = TextImpl (String c rest) ->
  Cell_GetValue (S fuel) this s =
    (s, Ret (VString (if Ascii.eqb c ESCAPE_SIGN then rest else String c rest))).
Proof. intros Himpl. simpl. by rewrite bind_get_sheet, Himpl. Qed.

Lemma CellImpl_resolve fuel pos s s' v :
  IsValid pos = true -> is_Some (s !! pos) ->
  Cell_GetValue fuel pos s = (s', Ret v) ->
  CellImpl (Cell_GetValue fuel) pos s = (s', resolve v).
Proof.
  intros Hvalid [c Hc] Hv.
  assert (Hagain : Cell_GetValue fuel pos s' = (s', Ret v)).
  { destruct fuel as [|fuel]; [done|]. by eapply Cell_GetValue_again. }
  unfold CellImpl. rewrite Hvalid. simpl.
  rewrite (bind_Ret _ _ _ _ _ (GetCell_eq pos s)), Hc.
  rewrite (bind_Ret _ _ _ _ _ Hv).
  destruct v as [t|d|fe]; rewrite !(bind_Ret _ _ _ _ _ Hagain); simpl.
  - rewrite (bind_Ret _ _ s' s' t) by done.
    destruct t as [|a t]; [done|].
    by destruct (iss_extract (String a t)) as [[d []]|].
  - done.
  - by rewrite (bind_Ret _ _ s' s' fe).
Qed.

End Reading.

(** ** Bounded depth: a check that computes *)

Section Depth.
Context `{Collab : Collaborators}.

Lemma ref_depth_sn n s p : ref_depth n s p = true -> sn (ref_step s) p.
Proof.
  revert p. induction n as [|n IH]; intros p Hp; [done|].
  constructor. intros q Hq. apply IH.
  simpl in Hp. rewrite forallb_forall in Hp. apply Hp.
  by apply list_elem_of_In.
Qed.

Lemma walk_depth_sn n s this p :
  walk_depth n s this p = true -> sn (cascade_walk s this) p.
Proof.
  revert p. induction n as [|n IH]; intros p Hp; [done|].
  constructor. intros q (Hq & Hne & [v Hv]). apply IH.
  simpl in Hp. rewrite forallb_forall in Hp.
  specialize (Hp q). rewrite decide_False, Hv in Hp by done.
  apply Hp, list_elem_of_In. by apply elem_of_elements.
Qed.

End Depth.

(** ** What [Formula::GetReferencedCells] does guarantee *)

Section Referenced_cells.
Context `{Collab : Collaborators}.

Lemma unique_from_Forall (P : Position -> Prop) last l :
  Forall P l -> Forall P (unique_from last l).
Proof.
  intros Hl. revert last. induction Hl as [|x l Hx _ IH]; intros last; simpl.
  - constructor.
  - case_decide; [apply IH | constructor; [done | apply IH]].
Qed.

(** Every position of the result is valid. *)
Lemma Formula_GetReferencedCells_valid ast :
  Forall (fun p => IsValid p = true) (Formula_GetReferencedCells ast).
Proof.
  unfold Formula_GetReferencedCells.
  assert (Hf : Forall (fun p => IsValid p = true) (List.filter IsValid (GetCells ast))).
  { apply List.Forall_forall. intros p Hp. by apply List.filter_In in Hp as [_ ?]. }
  destruct Hf as [|x l Hx Hl]; simpl; [constructor|].
  constructor; [done | by apply unique_from_Forall].
Qed.

Lemma unique_from_neighbours last l : no_equal_neighbours last (unique_from last l).
Proof.
  revert last. induction l as [|x l IH]; intros last; simpl; [done|].
  case_decide; [apply IH | split; [done | apply IH]].
Qed.

End Referenced_cells.

(** * The claims *)

Section Claims.
Context `{Collab : Collaborators}.

(** C4: [Cell::Set] is atomic on failure.  When [Set] throws, whichever
    exception it is, the sheet it leaves is the sheet it was called on: the
    content, the references, the dependents and the memo of every cell are
    what they were.  The exceptions it throws are the parser's and the one
    of the cycle search. *)
Theorem Cell_Set_atomic fuel this text s s' e :
  Cell_Set fuel this text s = (s', Throw e) ->
  s' = s ∧
  (forall p, impl_at s' p = impl_at s p ∧
             referenced_at s' p = referenced_at s p ∧
             dependent_at s' p = dependent_at s p ∧
             Cell_GetCache s' p = Cell_GetCache s p) ∧
  (e = FormulaException "Parsing failed" ∨
   e = CircularDependencyException "Circular cell").
Proof.
  intros Heq. destruct (Cell_Set_Throw _ _ _ _ _ _ Heq) as [-> He].
  split; [done|]. split; [|done]. by intros p.
Qed.

(** C5: [Cell::Set] throws the circular exception exactly when a position
    the candidate content refers to reaches the cell through the references
    of the contents, the cell's own position included; otherwise the search
    returns, in particular for a candidate without references; and a [Set]
    that throws leaves the sheet as it was.  The cell is one of the sheet,
    and the references below the candidate positions do not go on for
    ever. *)
Theorem Cell_Set_circular_iff this text s impl :
  is_Some (s !! this) ->
  make_impl text s = (s, Ret impl) ->
  (forall p, p ∈ Impl_GetReferencedCells impl -> sn (ref_step s) p) ->
  exists n, forall fuel, (n <= fuel)%nat ->
    ((exists s', Cell_Set fuel this text s
                 = (s', Throw (CircularDependencyException "Circular cell")))
     <-> (exists p, p ∈ Impl_GetReferencedCells impl ∧ rtc (ref_step s) p this)) ∧
    (~ (exists p, p ∈ Impl_GetReferencedCells impl ∧ rtc (ref_step s) p this) ->
       CheckCircularDependency fuel this (Impl_GetReferencedCells impl) s = (s, Ret tt)) ∧
    (forall s' e, Cell_Set fuel this text s = (s', Throw e) -> s' = s).
Proof.
  intros Hthis Hmk Hsn.
  destruct (CheckCircularDependency_decides s this _ Hthis Hsn) as [n Hn].
  exists n. intros fuel Hle. destruct (Hn fuel Hle) as [Hyes Hno].
  split; [split|split; [done|]].
  - intros [s' Heq]. unfold Cell_Set in Heq.
    rewrite (bind_Ret _ _ _ _ _ Hmk) in Heq.
    destruct (bind_inv _ _ _ _ _ Heq) as [(s1 & [] & _ & Hk)|[(e' & Hm & _)|[_ ?]]];
      [| |done].
    + exfalso. revert Hk.
      apply no_throw_bind; [apply no_throw_modify_sheet|intros _].
      apply no_throw_bind; [apply UpdateDependencies_no_throw|intros _].
      apply DestroyCache_no_throw.
    + by eapply CheckCircularDependency_Throw.
  - intros Hreach. exists s. unfold Cell_Set.
    rewrite (bind_Ret _ _ _ _ _ Hmk). by rewrite (bind_Throw _ _ _ _ _ (Hyes Hreach)).
  - intros s' e Heq. by destruct (Cell_Set_Throw _ _ _ _ _ _ Heq).
Qed.

(** C6, as amended: after a successful [Cell::Set] the cells that lost their
    memo are exactly the cells that a walk from the edited cell reaches, a
    walk over dependents edges that enters a cell only if it holds a memo
    (and never the edited cell, whose content is new); every other cell
    keeps its memo as it was.  Such a [Set] returns, for every fuel from
    some bound on, where the candidate is built and reaches the cell from
    nowhere, and neither the references nor the walk go on for ever. *)
Theorem Cell_Set_cascade_exact this text s impl :
  is_Some (s !! this) ->
  make_impl text s = (s, Ret impl) ->
  (forall p, p ∈ Impl_GetReferencedCells impl -> sn (ref_step s) p) ->
  ~ (exists p, p ∈ Impl_GetReferencedCells impl ∧ rtc (ref_step s) p this) ->
  sn (cascade_walk s this) this ->
  (exists n s', forall fuel, (n <= fuel)%nat ->
     Cell_Set fuel this text s = (s', Ret tt)) ∧
  (forall fuel s', Cell_Set fuel this text s = (s', Ret tt) ->
     forall p, p <> this ->
       (tc (cascade_walk s this) this p ->
          holds_memo s p ∧ Cell_GetCache s' p = None) ∧
       (~ tc (cascade_walk s this) this p ->
          Cell_GetCache s' p = Cell_GetCache s p)).
Proof.
  intros Hthis Hmk Hsn Hno Hwalk.
  split; [by eapply Cell_Set_succeeds|].
  intros fuel s' Heq p Hp.
  destruct (Cell_Set_Ret _ _ _ _ _ Hthis Heq) as (impl' & Y & _ & _ & _ & Himpl & _ & HY).
  unfold Cell_GetCache. rewrite Himpl, decide_False by done.
  split.
  - intros Htc. split.
    + by apply tc_last in Htc as (z & _ & _ & ?).
    + apply HY in Htc. rewrite decide_True by done. apply Impl_GetCache_DestroyCache.
  - intros Hntc. rewrite decide_False; [done|]. intros Hin. by apply Hntc, HY.
Qed.

(** C7: the resolver of the formula evaluation.  An invalid position throws
    the reference error; a position without a cell is the number zero; a
    cell whose value is a number is that number; a cell whose value is text
    is zero for the empty text, the number read when the extraction
    succeeds and ends at the end of the text, and the value error
    otherwise; a cell whose value is an error throws that error, and the
    evaluation that asked for the cell ends with that error as its
    result. *)
Theorem CellImpl_cases fuel pos s :
  let resolver := CellImpl (Cell_GetValue fuel) in
  (IsValid pos = false ->
     resolver pos s = (s, Throw (ThrownFormulaError RefErr))) ∧
  (IsValid pos = true -> s !! pos = None -> resolver pos s = (s, Ret zero)) ∧
  (forall s' d, IsValid pos = true -> is_Some (s !! pos) ->
     Cell_GetValue fuel pos s = (s', Ret (VDouble d)) ->
     resolver pos s = (s', Ret d)) ∧
  (forall s', IsValid pos = true -> is_Some (s !! pos) ->
     Cell_GetValue fuel pos s = (s', Ret (VString "")) ->
     resolver pos s = (s', Ret zero)) ∧
  (forall s' t d, IsValid pos = true -> is_Some (s !! pos) ->
     Cell_GetValue fuel pos s = (s', Ret (VString t)) ->
     t <> "" -> iss_extract t = Some (d, true) ->
     resolver pos s = (s', Ret d)) ∧
  (forall s' t, IsValid pos = true -> is_Some (s !! pos) ->
     Cell_GetValue fuel pos s = (s', Ret (VString t)) ->
     t <> "" -> (forall d, iss_extract t <> Some (d, true)) ->
     resolver pos s = (s', Throw (ThrownFormulaError ValueErr))) ∧
  (forall s' fe, IsValid pos = true -> is_Some (s !! pos) ->
     Cell_GetValue fuel pos s = (s', Ret (VError fe)) ->
     resolver pos s = (s', Throw (ThrownFormulaError fe)) ∧
     forall ast k, Execute ast = Ask pos k ->
       Formula_Evaluate (Cell_GetValue fuel) ast s = (s', Ret (FError fe))).
Proof.
  intros resolver. unfold resolver.
  split; [|split; [|split; [|split; [|split; [|split]]]]].
  - intros Hinv. unfold CellImpl. by rewrite Hinv.
  - intros Hvalid Hnone. unfold CellImpl. rewrite Hvalid. simpl.
    by rewrite (bind_Ret _ _ _ _ _ (GetCell_eq pos s)), Hnone.
  - intros s' d Hvalid Hsome Hv. by rewrite (CellImpl_resolve _ _ _ _ _ Hvalid Hsome Hv).
  - intros s' Hvalid Hsome Hv. by rewrite (CellImpl_resolve _ _ _ _ _ Hvalid Hsome Hv).
  - intros s' t d Hvalid Hsome Hv Ht Hex.
    rewrite (CellImpl_resolve _ _ _ _ _ Hvalid Hsome Hv). simpl.
    destruct t; [done|]. by rewrite Hex.
  - intros s' t Hvalid Hsome Hv Ht Hex.
    rewrite (CellImpl_resolve _ _ _ _ _ Hvalid Hsome Hv). simpl.
    destruct t as [|a t]; [done|].
    destruct (iss_extract (String a t)) as [[d []]|] eqn:Hx; try done.
    by destruct (Hex d).
  - intros s' fe Hvalid Hsome Hv.
    pose proof (CellImpl_resolve _ _ _ _ _ Hvalid Hsome Hv) as Hres. simpl in Hres.
    split; [done|]. intros ast k Hast.
    unfold Formula_Evaluate, catch_FormulaError. rewrite Hast. simpl.
    by rewrite (bind_Throw _ _ _ _ _ (bind_Throw _ _ _ _ _ Hres)).
Qed.

(** X17: where the walk of the cascade from the cell comes to an end, [Set]
    of a text returns; a text that is not empty and starts with the escape
    sign is then the text of the cell, and the value of the cell is the text
    without the sign; a text that is not empty, does not start with the
    escape sign and is not formula input is both the text and the value of
    the cell. *)
Theorem Cell_Set_text this c rest s :
  is_Some (s !! this) ->
  c = ESCAPE_SIGN ∨ is_formula_input (String c rest) = false ->
  sn (cascade_walk s this) this ->
  exists n s',
    (forall fuel, (n <= fuel)%nat ->
       Cell_Set fuel this (String c rest) s = (s', Ret tt)) ∧
    Cell_GetText s' this = String c rest ∧
    (c = ESCAPE_SIGN ->
       forall fuel, Cell_GetValue (S fuel) this s' = (s', Ret (VString rest))) ∧
    (c <> ESCAPE_SIGN ->
       forall fuel, Cell_GetValue (S fuel) this s' = (s', Ret (VString (String c rest)))).
Proof.
  intros Hthis Htext Hwalk.
  assert (Hnf : is_formula_input (String c rest) = false).
  { destruct Htext as [->|?]; [|done]. unfold is_formula_input.
    by rewrite andb_false_r. }
  assert (Hmk : make_impl (String c rest) s = (s, Ret (TextImpl (String c rest)))).
  { by rewrite make_impl_eq, Hnf. }
  destruct (Cell_Set_succeeds this _ s _ Hthis Hmk) as (n & s' & Hn);
    [ intros p Hp; simpl in Hp; by apply elem_of_nil in Hp
    | intros (p & Hp & _); simpl in Hp; by apply elem_of_nil in Hp
    | exact Hwalk | ].
  exists n, s'. split; [done|].
  destruct (Cell_Set_Ret _ _ _ _ _ Hthis (Hn n (le_n n)))
    as (impl' & Y & Hmk' & _ & _ & Himpl & _).
  rewrite Hmk in Hmk'. injection Hmk' as <-.
  specialize (Himpl this). rewrite decide_True in Himpl by done.
  split; [|split].
  - unfold Cell_GetText. by rewrite Himpl.
  - intros -> fuel. by rewrite (Cell_GetValue_Text _ _ _ _ _ Himpl).
  - intros Hne fuel. rewrite (Cell_GetValue_Text _ _ _ _ _ Himpl).
    destruct (Ascii.eqb_spec c ESCAPE_SIGN); done.
Qed.

(** C9: the empty-text error of the [TextImpl] constructor does not leave
    [Cell::Set].  The constructor does throw on the empty text, [Set] makes
    the empty content of the empty input, and no call of [Set] throws a
    [logic_error]. *)
Theorem Cell_Set_no_logic_error fuel this text s s' what :
  TextImpl_new "" s = (s, Throw (logic_error "Here is no text")) ∧
  make_impl "" s = (s, Ret EmptyImpl) ∧
  Cell_Set fuel this text s <> (s', Throw (logic_error what)).
Proof.
  split; [done|]. split; [done|]. intros Heq.
  by destruct (Cell_Set_Throw _ _ _ _ _ _ Heq) as (_ & [?|?]).
Qed.

(** X18: the formula sign alone is text.  Where the walk of the cascade
    from the cell comes to an end, [Set] of the one-character input makes
    text content without a call of the parser and returns, and the text and
    the value of the cell are that character.  The parser is called only
    for an input longer than one character that starts with the formula
    sign: every other input gives its content whatever the parser is. *)
Theorem Cell_Set_formula_sign_alone this s :
  is_Some (s !! this) ->
  sn (cascade_walk s this) this ->
  (exists n s',
     (forall fuel, (n <= fuel)%nat -> Cell_Set fuel this "=" s = (s', Ret tt)) ∧
     impl_at s' this = TextImpl "=" ∧
     Cell_GetText s' this = "=" ∧
     forall fuel, Cell_GetValue (S fuel) this s' = (s', Ret (VString "="))) ∧
  (forall text,
     is_formula_input text = true <->
     (1 < String.length text)%nat ∧ exists rest, text = String FORMULA_SIGN rest) ∧
  (forall text s0, is_formula_input text = false ->
     make_impl text s0 =
       (s0, Ret (match text with EmptyString => EmptyImpl | _ => TextImpl text end))) ∧
  (forall c rest s0, is_formula_input (String c rest) = true ->
     make_impl (String c rest) s0 =
       (s0, match ParseFormulaAST rest with
            | Some ast => Ret (FormulaImpl ast None)
            | None => Throw (FormulaException "Parsing failed")
            end)).
Proof.
  intros Hthis Hwalk. split; [|split; [|split]].
  - assert (Hmk : make_impl "=" s = (s, Ret (TextImpl "="))) by done.
    destruct (Cell_Set_succeeds this _ s _ Hthis Hmk) as (n & s' & Hn);
      [ intros p Hp; simpl in Hp; by apply elem_of_nil in Hp
    | intros (p & Hp & _); simpl in Hp; by apply elem_of_nil in Hp
    | exact Hwalk | ].
    exists n, s'. split; [done|].
    destruct (Cell_Set_Ret _ _ _ _ _ Hthis (Hn n (le_n n)))
      as (impl' & Y & Hmk' & _ & _ & Himpl & _).
    rewrite Hmk in Hmk'. injection Hmk' as <-.
    specialize (Himpl this). rewrite decide_True in Himpl by done.
    split; [done|]. split.
    + unfold Cell_GetText. by rewrite Himpl.
    + intros fuel. by rewrite (Cell_GetValue_Text _ _ _ _ _ Himpl).
  - intros text. unfold is_formula_input. destruct text as [|c rest].
    + split; [done|]. by intros [_ [? ?]].
    + rewrite andb_true_iff, Nat.ltb_lt. split.
      * intros [Hlen Hc]. split; [done|]. exists rest.
        by destruct (Ascii.eqb_spec c FORMULA_SIGN) as [->|].
      * intros [Hlen [rest' [= -> _]]]. done.
  - intros text s0 Hnf. rewrite make_impl_eq.
    destruct text as [|c rest]; [done|]. by rewrite Hnf.
  - intros c rest s0 Hf. rewrite make_impl_eq. by rewrite Hf.
Qed.

End Claims.

(** * Runs on the sample collaborator *)

Module Traces.
Import Sample.

(** A decidable fact about a run, by computation. *)
Ltac by_decide := apply (bool_decide_unpack _); vm_cast_no_check I.

(** An equation between closed terms, by computation. *)
Ltac by_compute :=
  lazymatch goal with
  | |- @eq ?T ?l ?r => vm_cast_no_check (@eq_refl T r)
  end.

(** C1 (code_bug): the first loop of [UpdateDependencies] walks the
    dependents of the cell and erases the cell from their references, where
    the edges to undo are those from the cell to what it referred to.  After
    A1 is set to "=B1" and then to "=C1", B1 still lists A1 as a dependent
    while A1 no longer refers to B1; after B1 is set to "=A1" and A1 to
    "7", A1 lists B1 as a dependent and the content of B1 reads A1, but the
    references of B1 have lost A1. *)
Theorem UpdateDependencies_breaks_duality :
  (let r := (SetCell 5 A1 "=B1" ;;; SetCell 5 A1 "=C1") ∅ in
   r.2 = Ret tt ∧
   A1 ∈ dependent_at r.1 B1 ∧
   (B1 ∉ referenced_at r.1 A1) ∧
   Cell_GetReferencedCells r.1 A1 = [C1]) ∧
  (let r := (SetCell 5 B1 "=A1" ;;; SetCell 5 A1 "7") ∅ in
   r.2 = Ret tt ∧
   B1 ∈ dependent_at r.1 A1 ∧
   Cell_GetReferencedCells r.1 B1 = [A1] ∧
   (A1 ∉ referenced_at r.1 B1)).
Proof.
  split; cbv zeta.
  - split; [by_compute|]. split; [|split; [|by_compute]].
    + by_decide.
    + by_decide.
  - split; [by_compute|]. split; [|split; [by_compute|]].
    + by_decide.
    + by_decide.
Qed.

(** The dependents that [UpdateDependencies] leaves behind can close a
    cycle of cells that hold memos, and on such a cycle [DestroyCache] never
    returns: on [sheet_stale_cycle] the call [Set] of "1" on the cell C1
    exceeds every call depth. *)
Theorem stale_dependents_cycle_overflows fuel :
  (Cell_Set fuel C1 "1" sheet_stale_cycle).2 = OutOfFuel.
Proof.
  destruct (Cell_Set fuel C1 "1" sheet_stale_cycle) as [s' [[]|e|]] eqn:Heq;
    simpl; [| |done]; exfalso.
  - apply Cell_Set_Ret_sn in Heq; [|by_decide].
    assert (HCA : cascade_walk sheet_stale_cycle C1 C1 A1).
    { split; [by_decide|]. split; [done|]. unfold holds_memo. by_decide. }
    assert (HAB : cascade_walk sheet_stale_cycle C1 A1 B1).
    { split; [by_decide|]. split; [done|]. unfold holds_memo. by_decide. }
    assert (HBA : cascade_walk sheet_stale_cycle C1 B1 A1).
    { split; [by_decide|]. split; [done|]. unfold holds_memo. by_decide. }
    apply (sn_no_cycle (cascade_walk sheet_stale_cycle C1) A1 B1); [|done..].
    eapply sn_step; [exact Heq | exact HCA].
  - by apply (Cell_Set_text_no_throw fuel C1 "1" sheet_stale_cycle s' e).
Qed.

(** On [sheet_stale_cycle] the walk of the cascade from C1 goes round A1 and
    B1 for ever. *)
Lemma stale_cycle_walk_loops : ~ sn (cascade_walk sheet_stale_cycle C1) C1.
Proof.
  intros Hsn.
  assert (HCA : cascade_walk sheet_stale_cycle C1 C1 A1).
  { split; [by_decide|]. split; [done|]. unfold holds_memo. by_decide. }
  assert (HAB : cascade_walk sheet_stale_cycle C1 A1 B1).
  { split; [by_decide|]. split; [done|]. unfold holds_memo. by_decide. }
  assert (HBA : cascade_walk sheet_stale_cycle C1 B1 A1).
  { split; [by_decide|]. split; [done|]. unfold holds_memo. by_decide. }
  apply (sn_no_cycle (cascade_walk sheet_stale_cycle C1) A1 B1); [|done..].
  eapply sn_step; [exact Hsn | exact HCA].
Qed.

(** So no [Set] of text on C1 comes back from its cascade there. *)
Lemma stale_cycle_Set_overflows fuel text :
  is_formula_input text = false ->
  (Cell_Set fuel C1 text sheet_stale_cycle).2 = OutOfFuel.
Proof.
  intros Hnf.
  destruct (Cell_Set fuel C1 text sheet_stale_cycle) as [s' [[]|e|]] eqn:Heq;
    simpl; [| |done]; exfalso.
  - apply Cell_Set_Ret_sn in Heq; [|by_decide].
    by apply stale_cycle_walk_loops.
  - by apply (Cell_Set_text_no_throw fuel C1 text sheet_stale_cycle s' e).
Qed.

(** C8 (code_bug): [Set] of a text does not always give the cell its text.
    The sheet [sheet_stale_cycle] is made by three calls of [SetCell] and
    one read, which all return.  There B1 lists A1 as a dependent although
    the content of A1 does not refer to B1, the edge that
    [UpdateDependencies] failed to undo; with the edge from A1 to B1 it
    closes a cycle of cells that hold memos.  [Set] on the cell C1 of the
    escaped text '123, and of the plain text abc, goes into [DestroyCache]
    and exceeds every call depth: no text and no value come out of it. *)
Theorem Set_text_overflows_on_stale_cycle :
  ((SetCell 9 A1 "=B1" ;;; SetCell 9 A1 "=C1" ;;; SetCell 9 B1 "=A1" ;;;
    Cell_GetValue 9 B1) ∅).2 = Ret (VDouble 0) ∧
  is_Some (sheet_stale_cycle !! C1) ∧
  A1 ∈ dependent_at sheet_stale_cycle B1 ∧
  (B1 ∉ Cell_GetReferencedCells sheet_stale_cycle A1) ∧
  (forall fuel, (Cell_Set fuel C1 "'123" sheet_stale_cycle).2 = OutOfFuel) ∧
  (forall fuel, (Cell_Set fuel C1 "abc" sheet_stale_cycle).2 = OutOfFuel).
Proof.
  split; [by_compute|]. split; [by_decide|]. split; [by_decide|].
  split; [by_decide|].
  split; intros fuel; by apply stale_cycle_Set_overflows.
Qed.

(** C10 (code_bug): [Set] of the formula sign alone does not always
    succeed.  On [sheet_stale_cycle], whose cell C1 is there, the input "="
    gives text content without a call of the parser, and [Set] on C1 then
    goes into [DestroyCache], round the cycle that the stale dependent of B1
    closes, and exceeds every call depth. *)
Theorem Set_formula_sign_overflows_on_stale_cycle :
  is_Some (sheet_stale_cycle !! C1) ∧
  make_impl "=" sheet_stale_cycle = (sheet_stale_cycle, Ret (TextImpl "=")) ∧
  (forall fuel, (Cell_Set fuel C1 "=" sheet_stale_cycle).2 = OutOfFuel).
Proof.
  split; [by_decide|]. split; [by rewrite make_impl_eq|].
  intros fuel. by apply stale_cycle_Set_overflows.
Qed.

(** C2 (code_bug): [Formula::GetReferencedCells] drops equal neighbours
    only.  For the formula "=A1+B1+A1", whose raw list is A1, B1, A1, the
    cell reports A1 twice. *)
Theorem GetReferencedCells_keeps_duplicates :
  let r := (SetCell 5 C1 "=A1+B1+A1") ∅ in
  r.2 = Ret tt ∧
  GetCells <$> ParseFormulaAST "A1+B1+A1" = Some [A1; B1; A1] ∧
  Cell_GetReferencedCells r.1 C1 = [A1; B1; A1] ∧
  ~ NoDup (Cell_GetReferencedCells r.1 C1).
Proof.
  cbv zeta. split; [by_compute|]. split; [by_compute|].
  assert (Hrefs : Cell_GetReferencedCells
            ((SetCell 5 C1 "=A1+B1+A1") ∅).1 C1 = [A1; B1; A1]) by by_compute.
  split; [done|]. rewrite Hrefs. intros Hnd.
  apply NoDup_cons in Hnd as [Hnotin _]. apply Hnotin.
  apply list_elem_of_further, list_elem_of_here.
Qed.

(** C3 (code_bug): [Cell::Clear] installs the empty content and runs no
    cascade.  With A1 = 5 and B1 = A1, once B1 is read its memo is 5; after
    [Clear] of A1 the memo of B1 is still 5, while the formula of B1
    evaluates to 0 on the sheet as it is.  [Set] of the empty text on A1,
    in the place of [Clear], drops the memo. *)
Theorem Clear_leaves_stale_memo :
  (let r := (SetCell 5 A1 "5" ;;; SetCell 5 B1 "=A1" ;;; Cell_GetValue 5 B1 ;;;
             Cell_Clear A1) ∅ in
   r.2 = Ret tt ∧
   Cell_GetText r.1 A1 = "" ∧
   Cell_GetCache r.1 B1 = Some (FDouble 5) ∧
   (Cell_GetValue 5 B1 r.1).2 = Ret (VDouble 5) ∧
   (Formula_Evaluate (Cell_GetValue 5) [A1] r.1).2 = Ret (FDouble 0)) ∧
  (let r := (SetCell 5 A1 "5" ;;; SetCell 5 B1 "=A1" ;;; Cell_GetValue 5 B1 ;;;
             Cell_Set 5 A1 "") ∅ in
   r.2 = Ret tt ∧
   Cell_GetCache r.1 B1 = None ∧
   (Cell_GetValue 5 B1 r.1).2 = Ret (VDouble 0)).
Proof.
  split; cbv zeta.
  - split; [by_compute|]. split; [by_compute|].
    split; [by_compute|]. split; by_compute.
  - split; [by_compute|]. split; by_compute.
Qed.

(** C6, as stated, fails: on [sheet_abort] the cell C1 depends on D1
    through B1 along dependents edges and holds a memo, B1 holds none, and
    after [Set] on D1 the cell C1 holds its memo still. *)
Lemma cascade_stops_before_memo :
  let r := Cell_Set 5 D1 "7" sheet_abort in
  r.2 = Ret tt ∧
  tc (fun a b => b ∈ dependent_at sheet_abort a) D1 C1 ∧
  Cell_GetCache sheet_abort B1 = None ∧
  Cell_GetCache sheet_abort C1 = Some (FError ValueErr) ∧
  Cell_GetCache r.1 C1 = Some (FError ValueErr).
Proof.
  cbv zeta. split; [by_compute|]. split.
  - apply tc_l with B1; [|apply tc_once]; by_decide.
  - split; [by_compute|]. split; by_compute.
Qed.

(** [Cell_Set_atomic] on a run: the cell A1 set to its own name. *)
Lemma Cell_Set_atomic_witness :
  (Cell_Set 3 A1 "=A1" sheet_A1).2
    = Throw (CircularDependencyException "Circular cell") ∧
  (Cell_Set 3 A1 "=A1" sheet_A1).1 = sheet_A1.
Proof.
  split; [by_compute|].
  assert (H : Cell_Set 3 A1 "=A1" sheet_A1
              = ((Cell_Set 3 A1 "=A1" sheet_A1).1,
                 Throw (CircularDependencyException "Circular cell")))
    by by_compute.
  exact (proj1 (Cell_Set_atomic 3 A1 "=A1" sheet_A1 _ _ H)).
Defined.

(** [Cell_Set_circular_iff] on a run: B1 reads A1, and A1 is set to read
    B1. *)
Lemma Cell_Set_circular_iff_witness :
  exists n, forall fuel, (n <= fuel)%nat ->
    exists s', Cell_Set fuel A1 "=B1" sheet_B1_reads_A1
               = (s', Throw (CircularDependencyException "Circular cell")).
Proof.
  destruct (Cell_Set_circular_iff A1 "=B1" sheet_B1_reads_A1 (@FormulaImpl collab [B1] None))
    as [n Hn].
  - by_decide.
  - by_compute.
  - intros p Hp. change (p ∈ [B1]) in Hp.
    apply list_elem_of_singleton in Hp as ->.
    apply (ref_depth_sn 3). by_compute.
  - exists n. intros fuel Hle. apply (Hn fuel Hle).
    exists B1. split; [apply list_elem_of_here|].
    apply rtc_once. unfold ref_step.
    assert (E : Cell_GetReferencedCells sheet_B1_reads_A1 B1 = [A1])
      by by_compute.
    rewrite E. apply list_elem_of_here.
Defined.

(** [Cell_Set_cascade_exact] on a run: on the chain, once C1 was read, a new
    text in A1 drops the memos of B1 and C1. *)
Lemma Cell_Set_cascade_exact_witness :
  (Cell_Set 5 A1 "5" sheet_chain).2 = Ret tt ∧
  Cell_GetCache sheet_chain B1 = Some (FDouble 1) ∧
  Cell_GetCache sheet_chain C1 = Some (FDouble 1) ∧
  Cell_GetCache (Cell_Set 5 A1 "5" sheet_chain).1 B1 = None ∧
  Cell_GetCache (Cell_Set 5 A1 "5" sheet_chain).1 C1 = None.
Proof.
  split; [by_compute|]. split; [by_compute|]. split; [by_compute|].
  assert (Hs' : Cell_Set 5 A1 "5" sheet_chain
                = ((Cell_Set 5 A1 "5" sheet_chain).1, Ret tt)) by by_compute.
  revert Hs'. generalize (Cell_Set 5 A1 "5" sheet_chain).1. intros s' Hs'.
  destruct (Cell_Set_cascade_exact A1 "5" sheet_chain (@TextImpl collab "5")) as [_ Hexact].
  - by_decide.
  - by_compute.
  - intros p Hp. by apply elem_of_nil in Hp.
  - intros (p & Hp & _). by apply elem_of_nil in Hp.
  - apply (walk_depth_sn 4). by_compute.
  - assert (HAB : cascade_walk sheet_chain A1 A1 B1).
    { split; [by_decide|].
      split; [done|]. unfold holds_memo. by_decide. }
    assert (HBC : cascade_walk sheet_chain A1 B1 C1).
    { split; [by_decide|].
      split; [done|]. unfold holds_memo. by_decide. }
    split.
    + apply (Hexact 5%nat s' Hs' B1); [done|]. by apply tc_once.
    + apply (Hexact 5%nat s' Hs' C1); [done|]. apply tc_l with B1; [done|]. by apply tc_once.
Defined.

(** [CellImpl_cases] on a run: a cell that holds the text 12, a position
    without a cell, an invalid position. *)
Lemma CellImpl_cases_witness :
  CellImpl (Cell_GetValue 3) A1 sheet_number = (sheet_number, Ret 12) ∧
  CellImpl (Cell_GetValue 3) B1 sheet_number = (sheet_number, Ret 0) ∧
  CellImpl (Cell_GetValue 3) (mkPosition (-1) 0) sheet_number
    = (sheet_number, Throw (ThrownFormulaError RefErr)).
Proof.
  split; [|split].
  - apply (proj1 (proj2 (proj2 (proj2 (proj2 (CellImpl_cases 3 A1 sheet_number)))))
             sheet_number "12" 12).
    + reflexivity.
    + by_decide.
    + by_compute.
    + discriminate.
    + reflexivity.
  - apply (proj1 (proj2 (CellImpl_cases 3 B1 sheet_number))).
    + reflexivity.
    + by_compute.
  - apply (proj1 (CellImpl_cases 3 (mkPosition (-1) 0) sheet_number)).
    reflexivity.
Defined.

(** [Cell_Set_text] on a run: the escaped text '123. *)
Lemma Cell_Set_text_witness :
  exists n s',
    (forall fuel, (n <= fuel)%nat -> Cell_Set fuel A1 "'123" sheet_A1 = (s', Ret tt)) ∧
    Cell_GetText s' A1 = "'123" ∧
    forall fuel, Cell_GetValue (S fuel) A1 s' = (s', Ret (VString "123")).
Proof.
  destruct (Cell_Set_text A1 "'"%char "123" sheet_A1) as (n & s' & Hset & Htext & Hesc & _).
  - by_decide.
  - left. reflexivity.
  - apply (walk_depth_sn 1). by_compute.
  - exists n, s'. split; [exact Hset|]. split; [exact Htext|]. apply Hesc. reflexivity.
Defined.

(** [Cell_Set_formula_sign_alone] on a run: the cell A1 set to "=". *)
Lemma Cell_Set_formula_sign_alone_witness :
  exists n s',
    (forall fuel, (n <= fuel)%nat -> Cell_Set fuel A1 "=" sheet_A1 = (s', Ret tt)) ∧
    impl_at s' A1 = TextImpl "=" ∧
    Cell_GetText s' A1 = "=" ∧
    forall fuel, Cell_GetValue (S fuel) A1 s' = (s', Ret (VString "=")).
Proof.
  apply (Cell_Set_formula_sign_alone A1 sheet_A1).
  - by_decide.
  - apply (walk_depth_sn 1). by_compute.
Defined.

End Traces.

(** * More properties *)

(** ** The referenced cells of a formula *)

Section More_referenced_cells.
Context `{Collab : Collaborators}.

Lemma unique_from_elem last l p : p ∈ unique_from last l -> p ∈ l.
Proof.
  revert last. induction l as [|x l IH]; intros last; simpl; [done|].
  case_decide.
  - intros Hp. apply list_elem_of_further. by eapply IH.
  - intros [->|Hp]%elem_of_cons; [apply list_elem_of_here|].
    apply list_elem_of_further. by eapply IH.
Qed.

Lemma unique_from_elem_rev last l p :
  p ∈ l -> p = last ∨ p ∈ unique_from last l.
Proof.
  revert last. induction l as [|x l IH]; intros last; simpl.
  - by intros ?%elem_of_nil.
  - intros [->|Hp]%elem_of_cons.
    + case_decide; [by left | right; apply list_elem_of_here].
    + case_decide.
      * by apply IH.
      * destruct (IH x Hp) as [->|?]; right;
          [apply list_elem_of_here | by apply list_elem_of_further].
Qed.

Lemma unique_elem l p : p ∈ unique l <-> p ∈ l.
Proof.
  destruct l as [|x l]; simpl; [done|]. rewrite !elem_of_cons. split.
  - intros [->|Hp]; [by left | right; by eapply unique_from_elem].
  - intros [->|Hp]; [by left|].
    destruct (unique_from_elem_rev x l p Hp); [by left | by right].
Qed.

Lemma Formula_GetReferencedCells_member ast p :
  p ∈ Formula_GetReferencedCells ast <-> p ∈ GetCells ast ∧ IsValid p = true.
Proof.
  unfold Formula_GetReferencedCells.
  rewrite unique_elem, !list_elem_of_In, List.filter_In. done.
Qed.

(** X1: [Formula::GetReferencedCells] loses no position and invents none:
    a position is in the result exactly when it is in the raw list of the
    expression and is valid; and no two neighbours of the result are
    equal. *)
Theorem Formula_GetReferencedCells_elem ast :
  (forall p, p ∈ Formula_GetReferencedCells ast <->
             p ∈ GetCells ast ∧ IsValid p = true) ∧
  match Formula_GetReferencedCells ast with
  | [] => True
  | x :: l => no_equal_neighbours x l
  end.
Proof.
  split.
  - intros p. apply Formula_GetReferencedCells_member.
  - unfold Formula_GetReferencedCells.
    destruct (List.filter IsValid (GetCells ast)) as [|x l]; simpl; [done|].
    apply unique_from_neighbours.
Qed.

Lemma StronglySorted_filter' (le : relation Position) (f : Position -> bool) l :
  StronglySorted le l -> StronglySorted le (List.filter f l).
Proof.
  induction 1 as [|x l _ IH Hx]; simpl; [constructor|].
  destruct (f x); [|done]. constructor; [done|].
  apply List.Forall_forall. intros y Hy. apply List.filter_In in Hy as [Hy _].
  by eapply List.Forall_forall in Hx.
Qed.

Lemma unique_from_sorted_NoDup (le : relation Position) last l :
  AntiSymm eq le ->
  StronglySorted le l -> Forall (le last) l ->
  NoDup (unique_from last l) ∧ last ∉ unique_from last l.
Proof.
  intros Hanti Hsorted. revert last.
  induction Hsorted as [|x l Hl IH Hx]; intros last Hlast; simpl.
  - split; [constructor | apply not_elem_of_nil].
  - apply Forall_cons in Hlast as [Hlx Hlast].
    case_decide as Heq; [by apply IH|].
    destruct (IH x Hx) as [Hnd Hnotin].
    split; [by constructor|].
    intros [->|Hin]%elem_of_cons; [done|].
    apply unique_from_elem in Hin.
    eapply Forall_forall in Hx; [|exact Hin].
    apply Heq. by apply (anti_symm le).
Qed.

(** X2: on a raw list that is sorted, by an order in which two positions
    that are below each other are equal, [Formula::GetReferencedCells]
    returns a list without duplicates. *)
Theorem Formula_GetReferencedCells_sorted_NoDup (le : relation Position) ast :
  AntiSymm eq le ->
  StronglySorted le (GetCells ast) ->
  NoDup (Formula_GetReferencedCells ast).
Proof.
  intros Hanti Hsorted. unfold Formula_GetReferencedCells.
  apply (StronglySorted_filter' le IsValid) in Hsorted.
  destruct (List.filter IsValid (GetCells ast)) as [|x l]; simpl; [constructor|].
  apply StronglySorted_cons in Hsorted as [Hx Hl].
  destruct (unique_from_sorted_NoDup le x l Hanti Hl Hx) as [Hnd Hnotin].
  by constructor.
Qed.

End More_referenced_cells.

(** ** The errors of a formula *)

(** X3: [FormulaError::operator==] holds exactly between equal categories,
    the renderings of [FormulaError::ToString] tell the categories apart,
    and none of them is the empty string of the fall-through. *)
Theorem FormulaError_ToString_inj (a b : FormulaError) :
  (FormulaError_eqb a b = true <-> a = b) ∧
  (FormulaError_ToString a = FormulaError_ToString b <->
   FormulaError_eqb a b = true) ∧
  FormulaError_ToString a <> "".
Proof. destruct a, b; repeat split; intros; done. Qed.

(** ** Parse failures *)

Section More_Set.
Context `{Collab : Collaborators}.

(** X4: [Cell::Set] throws the [FormulaException] of [ParseFormula] exactly
    for formula input whose rest the parser refuses; it does so before it
    looks at the sheet, whatever the sheet and the call depth are, and
    leaves the sheet as it is. *)
Theorem Cell_Set_parse_failure fuel this text s s' :
  Cell_Set fuel this text s = (s', Throw (FormulaException "Parsing failed")) <->
  s' = s ∧ exists c rest,
    text = String c rest ∧ is_formula_input text = true ∧
    ParseFormulaAST rest = None.
Proof.
  split.
  - intros Heq. destruct (Cell_Set_Throw _ _ _ _ _ _ Heq) as [-> _].
    split; [done|]. unfold Cell_Set in Heq.
    destruct (bind_inv _ _ _ _ _ Heq) as [(s1 & impl & Hmk & Hk)|[(e' & Hm & He)|[_ ?]]];
      [| |done].
    + exfalso.
      pose proof (make_impl_state _ _ _ _ Hmk) as ->.
      destruct (bind_inv _ _ _ _ _ Hk) as [(s2 & [] & _ & Hk')|[(e' & Hm & He)|[_ ?]]];
        [| |done].
      * revert Hk'.
        apply no_throw_bind; [apply no_throw_modify_sheet|intros _].
        apply no_throw_bind; [apply UpdateDependencies_no_throw|intros _].
        apply DestroyCache_no_throw.
      * injection He as <-.
        by apply CheckCircularDependency_only_circular in Hm.
    + rewrite make_impl_eq in Hm. injection Hm as Hm.
      destruct text as [|c rest]; [done|]. exists c, rest.
      destruct (is_formula_input (String c rest)); [|done].
      by destruct (ParseFormulaAST rest).
  - intros (-> & c & rest & -> & Hf & Hparse). unfold Cell_Set.
    apply bind_Throw. by rewrite make_impl_eq, Hf, Hparse.
Qed.

End More_Set.

(** ** The sheet after [Cell::Set] *)

Section More_edges.
Context `{Collab : Collaborators}.

Lemma referenced_at_alter (f : Cell -> Cell) p (s : Sheet) q :
  (forall c, referenced_cells_ (f c) = referenced_cells_ c) ->
  referenced_at (alter f p s) q = referenced_at s q.
Proof.
  intros Hf. unfold referenced_at.
  destruct (decide (p = q)) as [->|Hne];
    [rewrite lookup_alter_eq | by rewrite lookup_alter_ne].
  destruct (s !! q); simpl; [apply Hf | done].
Qed.

Lemma referenced_at_materialize pos s q :
  referenced_at (materialize pos s) q = referenced_at s q.
Proof.
  unfold materialize, referenced_at. destruct (s !! pos) eqn:Hpos; [done|].
  destruct (decide (pos = q)) as [->|Hne].
  - by rewrite lookup_insert_eq, Hpos.
  - by rewrite lookup_insert_ne.
Qed.

Lemma referenced_at_clear_caches X s p :
  referenced_at (clear_caches X s) p = referenced_at s p.
Proof.
  unfold referenced_at. rewrite lookup_clear_caches.
  destruct (s !! p); simpl; [|done]. by case_decide.
Qed.

Lemma is_Some_clear_caches X (s : Sheet) p :
  is_Some (clear_caches X s !! p) <-> is_Some (s !! p).
Proof. rewrite lookup_clear_caches. by rewrite fmap_is_Some. Qed.

Lemma referenced_at_link this pos s q :
  is_Some (s !! this) ->
  referenced_at (link this pos s) q =
    if decide (q = this) then referenced_at s q ∪ {[pos]} else referenced_at s q.
Proof.
  intros Hthis. unfold link.
  rewrite referenced_at_alter by done.
  destruct (decide (q = this)) as [->|Hne].
  - assert (is_Some (materialize pos s !! this)) as [c Hc]
      by (apply is_Some_materialize; by right).
    rewrite <- (referenced_at_materialize pos s this).
    unfold referenced_at. by rewrite lookup_alter_eq, Hc.
  - unfold referenced_at at 1. rewrite lookup_alter_ne by done.
    apply referenced_at_materialize.
Qed.

Lemma foldl_link_referenced this l s :
  is_Some (s !! this) ->
  let s' := foldl (fun s pos => link this pos s) s l in
  referenced_at s' this = referenced_at s this ∪ list_to_set l ∧
  (forall q, q <> this -> referenced_at s' q = referenced_at s q) ∧
  (forall q, is_Some (s' !! q) <-> is_Some (s !! q) ∨ q ∈ l).
Proof.
  revert s. induction l as [|pos l IH]; intros s Hthis; simpl.
  - split; [set_solver|]. split; [done|]. intros q. rewrite elem_of_nil. tauto.
  - destruct (IH (link this pos s)) as (Hrefs & Hother & Hsome).
    { apply is_Some_link. by right. }
    split; [|split].
    + rewrite Hrefs, referenced_at_link, decide_True by done. set_solver.
    + intros q Hq. rewrite Hother, referenced_at_link, decide_False by done. done.
    + intros q. rewrite Hsome, is_Some_link, elem_of_cons. tauto.
Qed.

Lemma unlink_referenced this (s : Sheet) :
  is_Some (s !! this) -> referenced_at (unlink this s) this = ∅.
Proof.
  intros Hthis. unfold unlink.
  destruct (foldl_alter_frame
    (fun x c => mkCell (impl_ c) (referenced_cells_ c ∖ {[this]}) (dependent_cells_ c))
    (elements (dependent_at s this)) s ltac:(done)) as (_ & Hsome & _).
  apply Hsome in Hthis as [c Hc].
  unfold referenced_at. by rewrite lookup_alter_eq, Hc.
Qed.

Lemma referenced_at_absent (s : Sheet) q : s !! q = None -> referenced_at s q = ∅.
Proof. intros Hq. unfold referenced_at. by rewrite Hq. Qed.

(** The edges after the content is installed and the edges are rebuilt. *)
Lemma commit_edges this impl s s1 :
  is_Some (s !! this) ->
  (set_impl this impl ;;; UpdateDependencies this) s = (s1, Ret tt) ->
  referenced_at s1 this = list_to_set (Impl_GetReferencedCells impl) ∧
  (forall q, is_Some (s1 !! q) <->
     is_Some (s !! q) ∨ q ∈ Impl_GetReferencedCells impl) ∧
  (forall q, s !! q = None -> q <> this -> referenced_at s1 q = ∅).
Proof.
  intros Hthis Hcommit.
  set (s0 := alter (fun c => mkCell impl (referenced_cells_ c) (dependent_cells_ c)) this s).
  assert (Hs0 : set_impl this impl s = (s0, Ret tt)) by done.
  rewrite (bind_Ret _ _ _ _ _ Hs0), UpdateDependencies_eq in Hcommit.
  injection Hcommit as <-.
  destruct (unlink_spec this s0) as (Himpl1 & Hsome1 & Hdep1).
  assert (Hthis0 : is_Some (s0 !! this)) by (unfold s0; by apply is_Some_alter).
  assert (Hrefs : Cell_GetReferencedCells (unlink this s0) this
                  = Impl_GetReferencedCells impl).
  { unfold Cell_GetReferencedCells. rewrite Himpl1. unfold s0.
    rewrite impl_at_set_impl by done. by rewrite decide_True. }
  rewrite Hrefs.
  destruct (foldl_link_referenced this (Impl_GetReferencedCells impl) (unlink this s0))
    as (Hr & Hother & Hsome); [by apply Hsome1|].
  split; [|split].
  - rewrite Hr, unlink_referenced by done. set_solver.
  - intros q. rewrite Hsome, Hsome1. unfold s0. by rewrite is_Some_alter.
  - intros q Hq Hne. rewrite Hother by done.
    apply referenced_at_absent.
    destruct (unlink this s0 !! q) eqn:Hlook; [|done].
    assert (is_Some (s !! q)) as [? ?]; [|congruence].
    eapply is_Some_alter. apply Hsome1. eauto.
Qed.

Lemma Impl_GetReferencedCells_DestroyCache i :
  Impl_GetReferencedCells (Impl_DestroyCache i) = Impl_GetReferencedCells i.
Proof. by destruct i. Qed.

Lemma Impl_GetText_DestroyCache i :
  Impl_GetText (Impl_DestroyCache i) = Impl_GetText i.
Proof. by destruct i. Qed.

(** A search that returns found no way back to the cell. *)
Lemma CheckCircularDependency_Ret_no_reach fuel this ref_cells s s' :
  is_Some (s !! this) ->
  CheckCircularDependency fuel this ref_cells s = (s', Ret tt) ->
  forall p, p ∈ ref_cells -> ~ rtc (ref_step s) p this.
Proof.
  intros Hthis Heq p Hp Hreach.
  destruct (bind_inv _ _ _ _ _ Heq) as [(s1 & V & Hm & _)|[(e' & _ & ?)|[_ ?]]];
    [|done..].
  pose proof (CheckCircularDependencyImpl_read_only _ _ _ _ _ _ _ Hm) as ->.
  assert (Hclosed : closed s this ∅) by (intros v Hv; set_solver).
  destruct (CheckCircularDependencyImpl_ret_complete s this fuel Hthis _ _ _ _ Hclosed Hm)
    as (HV & _ & Hall).
  by apply (closed_no_reach s this V p this HV (Hall p Hp) Hreach).
Qed.

(** X5: [Set] of the empty text makes the cell empty: its text and its value
    are the empty string, it refers to nothing and holds no memo.  [Set]
    returns where the walk of the cascade does not go on for ever. *)
Theorem Cell_Set_empty this s :
  is_Some (s !! this) ->
  sn (cascade_walk s this) this ->
  exists n s',
    (forall fuel, (n <= fuel)%nat -> Cell_Set fuel this "" s = (s', Ret tt)) ∧
    impl_at s' this = EmptyImpl ∧
    Cell_GetText s' this = "" ∧
    (forall fuel, Cell_GetValue (S fuel) this s' = (s', Ret (VString ""))) ∧
    Cell_GetReferencedCells s' this = [] ∧
    referenced_at s' this = ∅ ∧
    Cell_GetCache s' this = None.
Proof.
  intros Hthis Hwalk.
  assert (Hmk : make_impl "" s = (s, Ret EmptyImpl)) by done.
  destruct (Cell_Set_succeeds this _ s _ Hthis Hmk) as (n & s' & Hn);
    [ intros p Hp; by apply elem_of_nil in Hp
    | intros (p & Hp & _); by apply elem_of_nil in Hp
    | exact Hwalk | ].
  exists n, s'. split; [done|].
  pose proof (Hn n (le_n n)) as Hset.
  destruct (Cell_Set_Ret _ _ _ _ _ Hthis Hset) as (impl' & Y & Hmk' & _ & _ & Himpl & _).
  rewrite Hmk in Hmk'. injection Hmk' as <-.
  specialize (Himpl this). rewrite decide_True in Himpl by done.
  destruct (Cell_Set_Ret_steps _ _ _ _ _ Hset) as (impl' & s1 & Hmk' & _ & Hcommit & Hdc).
  rewrite Hmk in Hmk'. injection Hmk' as <-.
  destruct (commit_edges _ _ _ _ Hthis Hcommit) as (Hrefs & _ & _).
  destruct (DestroyCache_Ret _ _ _ _ Hdc) as (Y' & -> & _).
  split; [done|]. split; [unfold Cell_GetText; by rewrite Himpl|].
  split; [intros fuel; by apply Cell_GetValue_Empty|].
  split; [unfold Cell_GetReferencedCells; by rewrite Himpl|].
  split; [by rewrite referenced_at_clear_caches, Hrefs|].
  unfold Cell_GetCache. by rewrite Himpl.
Qed.

(** X6: after a [Set] of formula input that returned, the parser accepted
    the rest of the input, the text of the cell is the formula sign and the
    printed expression, the cell refers to the cleaned positions of the
    expression, the cell itself is not among them, and the cell holds no
    memo. *)
Theorem Cell_Set_formula fuel this c rest s s' :
  is_Some (s !! this) ->
  is_formula_input (String c rest) = true ->
  Cell_Set fuel this (String c rest) s = (s', Ret tt) ->
  exists ast,
    ParseFormulaAST rest = Some ast ∧
    impl_at s' this = FormulaImpl ast None ∧
    Cell_GetText s' this = String FORMULA_SIGN (PrintFormula ast) ∧
    Cell_GetReferencedCells s' this = Formula_GetReferencedCells ast ∧
    (this ∉ Formula_GetReferencedCells ast) ∧
    Cell_GetCache s' this = None.
Proof.
  intros Hthis Hf Hset.
  destruct (Cell_Set_Ret _ _ _ _ _ Hthis Hset) as (impl & Y & Hmk & Hchk & _ & Himpl & _).
  specialize (Himpl this). rewrite decide_True in Himpl by done.
  rewrite make_impl_eq, Hf in Hmk.
  destruct (ParseFormulaAST rest) as [ast|]; [|done].
  injection Hmk as <-. exists ast. split; [done|]. split; [done|].
  split; [unfold Cell_GetText; by rewrite Himpl|].
  split; [unfold Cell_GetReferencedCells; by rewrite Himpl|].
  split; [|unfold Cell_GetCache; by rewrite Himpl].
  intros Hin.
  apply (CheckCircularDependency_Ret_no_reach _ _ _ _ _ Hthis Hchk this Hin).
  apply rtc_refl.
Qed.

(** X7: the edges after a [Set] that returned.  The references of the cell
    are the positions its content refers to; the cells of the sheet are
    those it had and these positions, none is removed; each of these
    positions lists the cell as a dependent, and no dependent is removed
    anywhere; a position that held no cell holds an empty cell without
    references. *)
Theorem Cell_Set_edges fuel this text s s' :
  is_Some (s !! this) ->
  Cell_Set fuel this text s = (s', Ret tt) ->
  referenced_at s' this = list_to_set (Cell_GetReferencedCells s' this) ∧
  (forall q, is_Some (s' !! q) <->
     is_Some (s !! q) ∨ q ∈ Cell_GetReferencedCells s' this) ∧
  (forall p q, q ∈ dependent_at s' p <->
     q ∈ dependent_at s p ∨ (q = this ∧ p ∈ Cell_GetReferencedCells s' this)) ∧
  (forall q, s !! q = None -> q ∈ Cell_GetReferencedCells s' this ->
     impl_at s' q = EmptyImpl ∧ referenced_at s' q = ∅).
Proof.
  intros Hthis Hset.
  destruct (Cell_Set_Ret _ _ _ _ _ Hthis Hset)
    as (impl & Y & Hmk & _ & _ & Himpl & Hdep & _).
  destruct (Cell_Set_Ret_steps _ _ _ _ _ Hset) as (impl' & s1 & Hmk' & _ & Hcommit & Hdc).
  rewrite Hmk in Hmk'. injection Hmk' as <-.
  destruct (commit_edges _ _ _ _ Hthis Hcommit) as (Hrefs & Hsome & Hnew).
  destruct (DestroyCache_Ret _ _ _ _ Hdc) as (Y' & -> & _).
  assert (Hcells : Cell_GetReferencedCells (clear_caches Y' s1) this
                   = Impl_GetReferencedCells impl).
  { unfold Cell_GetReferencedCells. by rewrite Himpl, decide_True. }
  rewrite Hcells. split; [|split; [|split]].
  - by rewrite referenced_at_clear_caches.
  - intros q. by rewrite is_Some_clear_caches.
  - done.
  - intros q Hq Hin.
    assert (Hne : q <> this).
    { intros ->. rewrite Hq in Hthis. by destruct Hthis. }
    split.
    + rewrite Himpl, decide_False by done.
      unfold impl_at. rewrite Hq. by case_decide.
    + rewrite referenced_at_clear_caches. by apply Hnew.
Qed.

(** The references of the contents after a [Set] that returned. *)
Lemma ref_step_after_Set fuel this text s s' :
  is_Some (s !! this) ->
  Cell_Set fuel this text s = (s', Ret tt) ->
  exists impl,
    (forall p, p ∈ Impl_GetReferencedCells impl -> ~ rtc (ref_step s) p this) ∧
    forall a b, ref_step s' a b <->
      if decide (a = this) then b ∈ Impl_GetReferencedCells impl
      else ref_step s a b.
Proof.
  intros Hthis Hset.
  destruct (Cell_Set_Ret _ _ _ _ _ Hthis Hset) as (impl & Y & Hmk & Hchk & _ & Himpl & _).
  exists impl. split.
  - by eapply CheckCircularDependency_Ret_no_reach.
  - intros a b. unfold ref_step, Cell_GetReferencedCells. rewrite Himpl.
    destruct (decide (a = this)); [done|].
    case_decide; [|done]. by rewrite Impl_GetReferencedCells_DestroyCache.
Qed.

(** X8: [Set] keeps the reference graph free of cycles.  On a sheet whose
    chains of references are all finite, a [Set] that returned leaves a
    sheet whose chains of references are all finite. *)
Theorem Cell_Set_keeps_acyclic fuel this text s s' :
  is_Some (s !! this) ->
  (forall p, sn (ref_step s) p) ->
  Cell_Set fuel this text s = (s', Ret tt) ->
  forall p, sn (ref_step s') p.
Proof.
  intros Hthis Hsn Hset.
  destruct (ref_step_after_Set _ _ _ _ _ Hthis Hset) as (impl & Hno & Hstep).
  assert (Haway : forall q, ~ rtc (ref_step s) q this -> sn (ref_step s') q).
  { intros q. induction (Hsn q) as [q _ IH]. intros Hq.
    constructor. intros y Hy. apply Hstep in Hy.
    destruct (decide (q = this)) as [->|Hne]; [destruct Hq; apply rtc_refl|].
    apply IH; [done|]. intros Hreach. apply Hq. by eapply rtc_l. }
  intros p. induction (Hsn p) as [p _ IH].
  constructor. intros y Hy. pose proof Hy as Hy'. apply Hstep in Hy'.
  destruct (decide (p = this)) as [->|Hne].
  - apply Haway. by apply Hno.
  - by apply IH.
Qed.

(** ** [Cell::Clear] *)

Lemma Cell_Clear_eq this s :
  Cell_Clear this s =
    (alter (fun c => mkCell EmptyImpl (referenced_cells_ c) (dependent_cells_ c)) this s,
     Ret tt).
Proof. reflexivity. Qed.

(** X9: [Clear] empties the cell and nothing else.  The text and the value
    of the cell become the empty string and it refers to nothing; the
    reference and dependent sets of every cell, the cleared one included,
    and the content and the memo of every other cell stay as they are; and
    the chains of references stay finite. *)
Theorem Cell_Clear_effect this s :
  is_Some (s !! this) ->
  (forall p, sn (ref_step s) p) ->
  let s' := (Cell_Clear this s).1 in
  (Cell_Clear this s).2 = Ret tt ∧
  Cell_GetText s' this = "" ∧
  (forall fuel, Cell_GetValue (S fuel) this s' = (s', Ret (VString ""))) ∧
  Cell_GetReferencedCells s' this = [] ∧
  (forall q, (is_Some (s' !! q) <-> is_Some (s !! q)) ∧
             referenced_at s' q = referenced_at s q ∧
             dependent_at s' q = dependent_at s q) ∧
  (forall q, q <> this -> impl_at s' q = impl_at s q) ∧
  (forall p, sn (ref_step s') p).
Proof.
  intros Hthis Hsn. rewrite Cell_Clear_eq. simpl.
  assert (Himpl : forall q,
    impl_at (alter (fun c => mkCell EmptyImpl (referenced_cells_ c) (dependent_cells_ c))
               this s) q = if decide (q = this) then EmptyImpl else impl_at s q).
  { intros q. by apply impl_at_set_impl. }
  split; [done|].
  split; [unfold Cell_GetText; by rewrite Himpl, decide_True|].
  split; [intros fuel; apply Cell_GetValue_Empty; by rewrite Himpl, decide_True|].
  split; [unfold Cell_GetReferencedCells; by rewrite Himpl, decide_True|].
  split; [|split].
  - intros q. split; [apply is_Some_alter|].
    split; [by apply referenced_at_alter | by apply dependent_at_alter].
  - intros q Hq. by rewrite Himpl, decide_False.
  - intros p. eapply sn_subrel; [|apply Hsn].
    intros a b. unfold ref_step, Cell_GetReferencedCells. rewrite Himpl.
    case_decide; [by intros ?%elem_of_nil | done].
Qed.

End More_edges.

(** ** Reading values *)

Section More_reading.
Context `{Collab : Collaborators}.

Lemma erase_cache_lookup (s s' : Sheet) q :
  erase_cache <$> (s' !! q) = erase_cache <$> (s !! q) ->
  (is_Some (s' !! q) <-> is_Some (s !! q)) ∧
  Impl_DestroyCache (impl_at s' q) = Impl_DestroyCache (impl_at s q) ∧
  referenced_at s' q = referenced_at s q ∧
  dependent_at s' q = dependent_at s q.
Proof.
  unfold impl_at, referenced_at, dependent_at.
  destruct (s' !! q) as [c'|], (s !! q) as [c|]; simpl; intros Heq; try done.
  injection Heq as Hi Hr Hd. split; [split; eauto|]. done.
Qed.

(** X10: reading a value writes memos only.  Whatever [GetValue] returns or
    throws, every cell of the sheet is still there and no cell is new, and
    the text, the referenced positions and the two edge sets of every cell
    are what they were. *)
Theorem Cell_GetValue_frame fuel this s s' r :
  Cell_GetValue fuel this s = (s', r) ->
  forall q,
    (is_Some (s' !! q) <-> is_Some (s !! q)) ∧
    Cell_GetText s' q = Cell_GetText s q ∧
    Cell_GetReferencedCells s' q = Cell_GetReferencedCells s q ∧
    referenced_at s' q = referenced_at s q ∧
    dependent_at s' q = dependent_at s q.
Proof.
  intros Heq q.
  pose proof (caches_only_Cell_GetValue fuel this _ _ _ Heq q) as Hsame.
  apply erase_cache_lookup in Hsame as (Hsome & Himpl & Hr & Hd).
  split; [done|]. split; [|split; [|done]].
  - unfold Cell_GetText.
    by rewrite <- (Impl_GetText_DestroyCache (impl_at s' q)), Himpl,
      Impl_GetText_DestroyCache.
  - unfold Cell_GetReferencedCells.
    by rewrite <- (Impl_GetReferencedCells_DestroyCache (impl_at s' q)), Himpl,
      Impl_GetReferencedCells_DestroyCache.
Qed.

(** X11: a formula cell keeps what it computed.  Once [GetValue] has
    returned a value for a formula cell, the cell holds that value as its
    memo; and for a cell of any content, the next [GetValue] returns the
    same value with a call depth of one and leaves the sheet as it is. *)
Theorem Cell_GetValue_memoizes fuel this s s' v :
  Cell_GetValue fuel this s = (s', Ret v) ->
  Cell_GetValue 1 this s' = (s', Ret v) ∧
  forall ast cache, impl_at s this = FormulaImpl ast cache ->
    exists fv, impl_at s' this = FormulaImpl ast (Some fv) ∧
               Value_of_FValue fv = v.
Proof.
  intros Heq. split; [by apply (Cell_GetValue_again _ _ _ _ _ Heq 0%nat)|].
  intros ast cache Himpl.
  destruct fuel as [|fuel]; [done|]. simpl in Heq.
  rewrite bind_get_sheet, Himpl in Heq.
  destruct cache as [fv|].
  - injection Heq as <- <-. by exists fv.
  - destruct (bind_inv _ _ _ _ _ Heq) as [(s2 & fv & Hm & Hk)|[(e' & _ & ?)|[_ ?]]];
      [|done..].
    injection Hk as <- <-.
    destruct (bind_inv _ _ _ _ _ Hm) as [(s1 & fv' & Hev & Hk)|[(e' & _ & ?)|[_ ?]]];
      [|done..].
    unfold set_cache in Hk. rewrite bind_modify_sheet in Hk.
    injection Hk as <- <-.
    pose proof (caches_only_Formula_Evaluate _ ast
      (caches_only_Cell_GetValue fuel) _ _ _ Hev this) as Hsame.
    apply erase_cache_lookup in Hsame as (_ & Hi & _).
    rewrite Himpl in Hi. simpl in Hi.
    exists fv'. split; [|done].
    unfold impl_at in *. rewrite lookup_alter_eq.
    destruct (s1 !! this) as [c1|]; simpl in *; [|done].
    destruct (impl_ c1); try done. by injection Hi as ->.
Qed.

Lemma no_empty_text_caches_only {A} (m : M A) :
  caches_only m -> keeps no_empty_text m.
Proof.
  intros Hm s s' r HI Heq p Hp.
  pose proof (Hm _ _ _ Heq p) as Hsame.
  apply erase_cache_lookup in Hsame as (_ & Hi & _).
  rewrite Hp in Hi. simpl in Hi. apply (HI p).
  by destruct (impl_at s p).
Qed.

Lemma no_empty_textb_spec s : no_empty_textb s = true -> no_empty_text s.
Proof.
  unfold no_empty_textb, no_empty_text, impl_at. intros Hall p Hp.
  destruct (s !! p) as [c|] eqn:Hc; [|done].
  rewrite forallb_forall in Hall.
  specialize (Hall (p, c)). simpl in Hall. rewrite Hp in Hall.
  assert (true = false); [symmetry; apply Hall|done].
  apply list_elem_of_In. by apply elem_of_map_to_list.
Qed.

Lemma CellImpl_only_FormulaError fuel pos :
  (forall p s s' e, no_empty_text s -> Cell_GetValue fuel p s <> (s', Throw e)) ->
  only_FormulaError (CellImpl (Cell_GetValue fuel) pos).
Proof.
  intros HGV s s' e HI Heq.
  destruct (IsValid pos) eqn:Hvalid.
  2:{ unfold CellImpl in Heq. rewrite Hvalid in Heq. simpl in Heq.
      injection Heq as _ <-. eauto. }
  destruct (s !! pos) as [c|] eqn:Hc.
  2:{ unfold CellImpl in Heq. rewrite Hvalid in Heq. simpl in Heq.
      rewrite (bind_Ret _ _ _ _ _ (GetCell_eq pos s)), Hc in Heq. done. }
  destruct (Cell_GetValue fuel pos s) as [s1 [v|e1|]] eqn:Hv.
  - rewrite (CellImpl_resolve _ _ _ _ _ Hvalid ltac:(eauto) Hv) in Heq.
    injection Heq as _ Hres. destruct v as [t|d|fe]; simpl in Hres.
    + destruct t as [|a t]; [done|].
      destruct (iss_extract (String a t)) as [[d []]|]; try done;
        injection Hres as <-; eauto.
    + done.
    + injection Hres as <-. eauto.
  - by destruct (HGV _ _ _ _ HI Hv).
  - unfold CellImpl in Heq. rewrite Hvalid in Heq. simpl in Heq.
    rewrite (bind_Ret _ _ _ _ _ (GetCell_eq pos s)), Hc in Heq.
    by rewrite (bind_OutOfFuel _ _ _ _ Hv) in Heq.
Qed.

Lemma run_Execute_only_FormulaError fuel e0 :
  (forall p s s' e, no_empty_text s -> Cell_GetValue fuel p s <> (s', Throw e)) ->
  only_FormulaError (run_Execute (CellImpl (Cell_GetValue fuel)) e0).
Proof.
  intros HGV. induction e0 as [r|fe|pos k IH]; intros s s' e HI; simpl.
  - done.
  - intros [= _ <-]. eauto.
  - intros Heq.
    destruct (bind_inv _ _ _ _ _ Heq) as [(s1 & v & Hm & Hk)|[(e' & Hm & He)|[_ ?]]];
      [| |done].
    + eapply IH; [|exact Hk].
      eapply (no_empty_text_caches_only (CellImpl (Cell_GetValue fuel) pos));
        [|exact HI|exact Hm].
      apply caches_only_CellImpl. intros p. apply caches_only_Cell_GetValue.
    + injection He as <-. by eapply CellImpl_only_FormulaError.
Qed.

Lemma Cell_GetValue_no_throw fuel p s s' e :
  no_empty_text s -> Cell_GetValue fuel p s <> (s', Throw e).
Proof.
  revert p s s' e. induction fuel as [|fuel IH]; intros p s s' e HI; [done|].
  simpl. rewrite bind_get_sheet.
  destruct (impl_at s p) as [|t|ast cache] eqn:Himpl; [done| |].
  - destruct t as [|c rest]; [|done]. by destruct (HI p).
  - destruct cache as [fv|]; [done|]. intros Heq.
    destruct (bind_inv _ _ _ _ _ Heq) as [(s1 & v & _ & Hk)|[(e' & Hm & _)|[_ ?]]];
      [done| |done].
    destruct (bind_inv _ _ _ _ _ Hm) as [(s1 & v & _ & Hk)|[(e'' & Hev & He)|[_ ?]]];
      [|clear Hm|done].
    { destruct (bind_inv _ _ _ _ _ Hk) as [(? & ? & _ & ?)|[(? & ? & _)|[_ ?]]]; done. }
    injection He as <-.
    unfold Formula_Evaluate, catch_FormulaError in Hev.
    destruct ((d <- run_Execute (CellImpl (Cell_GetValue fuel)) (Execute ast) ;;
               ret (FDouble d)) s) as [s2 r2] eqn:Hrun.
    destruct r2 as [?|e2|]; [done| |done].
    destruct (bind_inv _ _ _ _ _ Hrun) as [(? & ? & _ & ?)|[(e3 & Hrun' & He3)|[_ ?]]];
      [done| |done].
    injection He3 as <-.
    destruct (run_Execute_only_FormulaError fuel _ IH _ _ _ HI Hrun') as [fe ->].
    done.
Qed.

(** X12: no exception leaves [GetValue].  On a sheet on which no text cell
    holds the empty string, [GetValue] returns a value or exceeds the call
    depth, for every cell and every call depth: the errors of a formula and
    of the cells it reads end as error values. *)
Theorem Cell_GetValue_never_throws fuel this s :
  no_empty_text s ->
  (exists s' v, Cell_GetValue fuel this s = (s', Ret v)) ∨
  (exists s', Cell_GetValue fuel this s = (s', OutOfFuel)).
Proof.
  intros HI. destruct (Cell_GetValue fuel this s) as [s' [v|e|]] eqn:Heq.
  - left. eauto.
  - by destruct (Cell_GetValue_no_throw _ _ _ _ _ HI Heq).
  - right. eauto.
Qed.

Lemma keeps_bind {A B} (I : Sheet -> Prop) (m : M A) (k : A -> M B) :
  keeps I m -> (forall a, keeps I (k a)) -> keeps I (bind m k).
Proof.
  intros Hm Hk s s' r HI Heq.
  destruct (bind_inv _ _ _ _ _ Heq) as [(s1 & a & Hm' & Hk')|[(e' & Hm' & _)|[Hm' _]]].
  - eapply Hk; [|exact Hk']. by eapply Hm.
  - by eapply Hm.
  - by eapply Hm.
Qed.

Lemma keeps_read_only {A} (I : Sheet -> Prop) (m : M A) : read_only m -> keeps I m.
Proof. intros Hm s s' r HI Heq. by rewrite (Hm _ _ _ Heq). Qed.

Lemma caches_only_for_each {A} (l : list A) (body : A -> M unit) :
  (forall x, caches_only (body x)) -> caches_only (for_each l body).
Proof.
  intros Hbody. induction l as [|x l IH]; simpl.
  - apply caches_only_read_only, read_only_ret.
  - apply caches_only_bind; [apply Hbody | intros _; apply IH].
Qed.

Lemma caches_only_DestroyCache fuel cell : caches_only (DestroyCache fuel cell).
Proof.
  revert cell. induction fuel as [|fuel IH]; intros cell; simpl.
  - apply caches_only_read_only, read_only_out_of_fuel.
  - apply caches_only_bind; [apply caches_only_read_only, read_only_get_sheet|].
    intros s0. apply caches_only_for_each. intros dep.
    apply caches_only_bind; [apply caches_only_read_only, read_only_get_sheet|].
    intros s1. destruct (Cell_GetCache s1 dep);
      [|apply caches_only_read_only, read_only_ret].
    apply caches_only_bind; [apply IH|]. intros _.
    intros s s' r [= <- _] q.
    destruct (decide (dep = q)) as [->|Hne];
      [rewrite lookup_alter_eq | by rewrite lookup_alter_ne].
    destruct (s !! q) as [[[] ? ?]|]; reflexivity.
Qed.

Lemma no_empty_text_impl_at (s s' : Sheet) :
  (forall q, impl_at s' q = impl_at s q) -> no_empty_text s -> no_empty_text s'.
Proof. intros Himpl HI p. rewrite Himpl. apply HI. Qed.

Lemma keeps_no_empty_text_Set fuel this text :
  keeps no_empty_text (Cell_Set fuel this text).
Proof.
  unfold Cell_Set. intros s s' r HI Heq.
  destruct (bind_inv _ _ _ _ _ Heq) as [(s1 & impl & Hmk & Hk)|[(e' & Hm' & _)|[Hm' _]]].
  2:{ by rewrite (make_impl_state _ _ _ _ Hm'). }
  2:{ by rewrite (make_impl_state _ _ _ _ Hm'). }
  pose proof (make_impl_state _ _ _ _ Hmk) as ->.
  assert (Hne : impl <> TextImpl "").
  { rewrite make_impl_eq in Hmk. injection Hmk as Hmk.
    destruct text as [|c rest]; [by injection Hmk as <-|].
    destruct (is_formula_input _); [|by injection Hmk as <-].
    destruct (ParseFormulaAST rest); [by injection Hmk as <-|done]. }
  clear Hmk Heq. revert s s' r HI Hk.
  change (keeps no_empty_text
    (CheckCircularDependency fuel this (Impl_GetReferencedCells impl);;;
     set_impl this impl;;; UpdateDependencies this;;; DestroyCache fuel this)).
  apply keeps_bind; [apply keeps_read_only, CheckCircularDependency_read_only|].
  intros _. apply keeps_bind.
  { intros s0 s0' r0 HI [= <- _] p.
    unfold impl_at. destruct (decide (this = p)) as [->|Hnp];
      [rewrite lookup_alter_eq | rewrite lookup_alter_ne by done; apply HI].
    destruct (s0 !! p); simpl; done. }
  intros _. apply keeps_bind.
  { intros s0 s0' r0 HI Hupd. rewrite UpdateDependencies_eq in Hupd.
    injection Hupd as <- _.
    eapply no_empty_text_impl_at; [|exact HI]. intros q.
    destruct (foldl_link_spec this (Cell_GetReferencedCells (unlink this s0) this)
                (unlink this s0)) as (Himpl & _).
    destruct (unlink_spec this s0) as (Himpl1 & _).
    by rewrite Himpl, Himpl1. }
  intros _. apply no_empty_text_caches_only, caches_only_DestroyCache.
Qed.

(** X13: no operation of the cell makes a text cell over the empty string.
    The empty sheet has none, and from a sheet without one, [Set], [Clear],
    [GetValue] and the sheet's making of an empty cell leave a sheet without
    one, whatever they return or throw. *)
Theorem no_empty_text_invariant :
  no_empty_text ∅ ∧
  (forall fuel this text, keeps no_empty_text (Cell_Set fuel this text)) ∧
  (forall this, keeps no_empty_text (Cell_Clear this)) ∧
  (forall fuel this, keeps no_empty_text (Cell_GetValue fuel this)) ∧
  (forall pos, keeps no_empty_text (Sheet_SetCell_empty pos)).
Proof.
  split; [by intros p|]. split; [apply keeps_no_empty_text_Set|].
  split; [|split].
  - intros this s s' r HI [= <- _] p.
    unfold impl_at. destruct (decide (this = p)) as [->|Hnp];
      [rewrite lookup_alter_eq | rewrite lookup_alter_ne by done; apply HI].
    destruct (s !! p); simpl; done.
  - intros fuel this. apply no_empty_text_caches_only, caches_only_Cell_GetValue.
  - intros pos s s' r HI [= <- _].
    eapply no_empty_text_impl_at; [|exact HI]. intros q.
    apply impl_at_materialize.
Qed.

End More_reading.

(** ** The cascade *)

Section More_cascade.
Context `{Collab : Collaborators}.

(** X14: [DestroyCache] returns, for some call depth, exactly where every
    walk from the cell through dependents that hold memos comes to an end;
    and it never throws. *)
Theorem DestroyCache_returns_iff cell s :
  ((exists fuel s', DestroyCache fuel cell s = (s', Ret tt)) <->
   sn (cascade_step s) cell) ∧
  (forall fuel s' e, DestroyCache fuel cell s <> (s', Throw e)).
Proof.
  split; [split|].
  - intros (fuel & s' & Heq). by eapply DestroyCache_Ret_sn.
  - intros Hsn. destruct (DestroyCache_terminates s cell Hsn) as (n & s' & Hn).
    exists n, s'. by apply Hn.
  - intros fuel s' e. apply DestroyCache_no_throw.
Qed.

Lemma sn_no_tc_loop {A} (R : relation A) a : sn R a -> ~ tc R a a.
Proof.
  induction 1 as [a _ IH]. intros Htc.
  inversion Htc as [? ? Hstep|? b ? Hstep Htc']; subst.
  - by apply (IH a Hstep).
  - apply (IH b Hstep). by eapply tc_r.
Qed.

Lemma for_each_skip {A} (l : list A) (body : A -> M unit) s :
  (forall x, x ∈ l -> body x s = (s, Ret tt)) ->
  for_each l body s = (s, Ret tt).
Proof.
  induction l as [|x l IH]; intros Hbody; simpl; [done|].
  rewrite (bind_Ret _ _ _ _ _ (Hbody x (list_elem_of_here _ _))).
  apply IH. intros y Hy. apply Hbody. by apply list_elem_of_further.
Qed.

(** X15: what a cascade that returned has done and has left alone.  Every
    cell is still there with its text, its referenced positions and its
    edge sets; the cell the cascade started from holds the memo it held; no
    dependent of that cell holds a memo; and a second cascade from the same
    cell returns at once and changes nothing. *)
Theorem DestroyCache_effect fuel cell s s' :
  DestroyCache fuel cell s = (s', Ret tt) ->
  (forall q, (is_Some (s' !! q) <-> is_Some (s !! q)) ∧
             Cell_GetText s' q = Cell_GetText s q ∧
             Cell_GetReferencedCells s' q = Cell_GetReferencedCells s q ∧
             referenced_at s' q = referenced_at s q ∧
             dependent_at s' q = dependent_at s q) ∧
  Cell_GetCache s' cell = Cell_GetCache s cell ∧
  (forall d, d ∈ dependent_at s cell -> Cell_GetCache s' d = None) ∧
  (forall fuel', DestroyCache (S fuel') cell s' = (s', Ret tt)).
Proof.
  intros Heq.
  pose proof (DestroyCache_Ret_sn _ _ _ _ Heq) as Hsn.
  destruct (DestroyCache_Ret _ _ _ _ Heq) as (Y & -> & HY).
  assert (Hdeps : forall d, d ∈ dependent_at s cell ->
            Cell_GetCache (clear_caches Y s) d = None).
  { intros d Hd. rewrite Cell_GetCache_clear_caches.
    case_decide as HdY; [done|].
    destruct (Cell_GetCache s d) as [v|] eqn:Hcache; [|done].
    destruct HdY. apply HY, tc_once. split; [done|].
    unfold holds_memo. rewrite Hcache. eauto. }
  split; [|split; [|split; [done|]]].
  - intros q. split; [apply is_Some_clear_caches|].
    split; [|split; [|split]].
    + unfold Cell_GetText. rewrite impl_at_clear_caches.
      case_decide; [apply Impl_GetText_DestroyCache | done].
    + unfold Cell_GetReferencedCells. rewrite impl_at_clear_caches.
      case_decide; [apply Impl_GetReferencedCells_DestroyCache | done].
    + apply referenced_at_clear_caches.
    + apply dependent_at_clear_caches.
  - rewrite Cell_GetCache_clear_caches. case_decide as Hin; [|done].
    apply HY in Hin. by destruct (sn_no_tc_loop _ _ Hsn Hin).
  - intros fuel'. rewrite DestroyCache_S, dependent_at_clear_caches.
    apply for_each_skip. intros d Hd. apply elem_of_elements in Hd.
    by rewrite cascade_body_eq, (Hdeps d Hd).
Qed.

End More_cascade.

(** ** The evaluation of a formula comes to an end *)

Section More_evaluation.
Context `{Collab : Collaborators}.

Lemma refines_catch {A} (m1 m2 : M A) (h : FormulaError -> M A) :
  refines m1 m2 -> refines (catch_FormulaError m1 h) (catch_FormulaError m2 h).
Proof.
  intros Hm s s' r. unfold catch_FormulaError.
  destruct (m1 s) as [s1 [a|e|]] eqn:Hm1.
  - rewrite (Hm _ _ _ Hm1) by done. done.
  - rewrite (Hm _ _ _ Hm1) by done. done.
  - intros [= _ <-] Hr. by destruct Hr.
Qed.

Lemma refines_CellImpl (g1 g2 : Position -> M Value) pos :
  (forall p, refines (g1 p) (g2 p)) -> refines (CellImpl g1 pos) (CellImpl g2 pos).
Proof.
  intros Hg. unfold CellImpl.
  destruct (negb (IsValid pos)); [apply refines_refl|].
  apply refines_bind; [apply refines_refl|]. intros [c|]; [|apply refines_refl].
  apply refines_bind; [apply Hg|]. intros [t|d|fe].
  - apply refines_bind; [apply Hg|]. intros [t'|d'|fe'].
    + apply refines_bind; [apply Hg | intros; apply refines_refl].
    + apply refines_bind; [apply Hg | intros; apply refines_refl].
    + apply refines_bind; [apply Hg | intros; apply refines_refl].
  - apply refines_bind; [apply Hg | intros; apply refines_refl].
  - apply refines_bind; [apply Hg|]. intros [t'|d'|fe'].
    + apply refines_bind; [apply Hg | intros; apply refines_refl].
    + apply refines_bind; [apply Hg | intros; apply refines_refl].
    + apply refines_bind; [apply Hg | intros; apply refines_refl].
Qed.

Lemma refines_run_Execute (r1 r2 : Position -> M number) e :
  (forall p, refines (r1 p) (r2 p)) -> refines (run_Execute r1 e) (run_Execute r2 e).
Proof.
  intros Hr. induction e as [r|fe|pos k IH]; simpl; [apply refines_refl..|].
  apply refines_bind; [apply Hr | intros v; apply IH].
Qed.

Lemma Cell_GetValue_fuel_S fuel this :
  refines (Cell_GetValue fuel this) (Cell_GetValue (S fuel) this).
Proof.
  revert this. induction fuel as [|fuel IH]; intros this.
  - apply refines_out_of_fuel.
  - change (Cell_GetValue (S (S fuel)) this) with
      (s <- get_sheet ;;
       match impl_at s this with
       | EmptyImpl => ret (VString "")
       | TextImpl text_ => TextImpl_GetValue text_
       | FormulaImpl formula_ cache_ =>
           v <- match cache_ with
                | Some v => ret v
                | None =>
                    v <- Formula_Evaluate (Cell_GetValue (S fuel)) formula_ ;;
                    set_cache this v ;;;
                    ret v
                end ;;
           ret (Value_of_FValue v)
       end).
    simpl. apply refines_bind; [apply refines_refl|]. intros s0.
    destruct (impl_at s0 this) as [|t|ast cache]; [apply refines_refl..|].
    apply refines_bind; [|intros; apply refines_refl].
    destruct cache; [apply refines_refl|].
    apply refines_bind; [|intros; apply refines_refl].
    apply refines_catch. apply refines_bind; [|intros; apply refines_refl].
    apply refines_run_Execute. intros p. by apply refines_CellImpl.
Qed.

(** A deeper call stack changes nothing for a read that stayed within a
    shallower one. *)
Lemma Cell_GetValue_fuel_le n m this :
  (n <= m)%nat -> refines (Cell_GetValue n this) (Cell_GetValue m this).
Proof.
  induction 1 as [|m _ IH]; [apply refines_refl|].
  intros s s' r Heq Hr. apply Cell_GetValue_fuel_S; [by apply IH | done].
Qed.

Lemma run_Execute_fuel_le n m e :
  (n <= m)%nat ->
  refines (run_Execute (CellImpl (Cell_GetValue n)) e)
          (run_Execute (CellImpl (Cell_GetValue m)) e).
Proof.
  intros Hle. apply refines_run_Execute. intros p. apply refines_CellImpl.
  intros q. by apply Cell_GetValue_fuel_le.
Qed.

Lemma same_but_caches_step {A} (m : M A) s s2 s3 r :
  caches_only m -> same_but_caches s s2 -> m s2 = (s3, r) -> same_but_caches s s3.
Proof. intros Hm Hs Heq q. rewrite (Hm _ _ _ Heq q). apply Hs. Qed.

Lemma same_but_caches_refs s s2 p :
  same_but_caches s s2 -> Cell_GetReferencedCells s2 p = Cell_GetReferencedCells s p.
Proof.
  intros Hs. destruct (erase_cache_lookup _ _ _ (Hs p)) as (_ & Hi & _).
  unfold Cell_GetReferencedCells.
  by rewrite <- (Impl_GetReferencedCells_DestroyCache (impl_at s2 p)), Hi,
    Impl_GetReferencedCells_DestroyCache.
Qed.

(** The run of an expression comes to an end where the reads of the cells
    it asks for do. *)
Lemma run_Execute_ends l s e :
  asks_within l e ->
  (forall y, y ∈ l -> IsValid y = true -> forall s2, same_but_caches s s2 ->
     exists n, (Cell_GetValue n y s2).2 <> OutOfFuel) ->
  forall s2, same_but_caches s s2 ->
    exists n, (run_Execute (CellImpl (Cell_GetValue n)) e s2).2 <> OutOfFuel.
Proof.
  intros Hasks Hcells. induction e as [r|fe|pos k IH]; intros s2 Hs2.
  - by exists O.
  - by exists O.
  - destruct Hasks as [Hpos Hk]. simpl.
    destruct (IsValid pos) eqn:Hvalid.
    2:{ exists O. unfold CellImpl, bind. by rewrite Hvalid. }
    destruct (s2 !! pos) as [c|] eqn:Hc.
    2:{ destruct (IH zero (Hk zero) s2 Hs2) as [n Hn]. exists n.
        unfold CellImpl at 1. rewrite Hvalid. simpl.
        unfold bind at 1. unfold bind at 1. rewrite GetCell_eq, Hc. exact Hn. }
    destruct (Hcells pos Hpos Hvalid s2 Hs2) as [n1 Hn1].
    destruct (Cell_GetValue n1 pos s2) as [s3 [v|e|]] eqn:Hv; [| |done].
    + assert (Hs3 : same_but_caches s s3).
      { eapply same_but_caches_step; [apply (caches_only_Cell_GetValue n1 pos)|done..]. }
      destruct (resolve v) as [d|e|] eqn:Hres.
      * destruct (IH d (Hk d) s3 Hs3) as [n2 Hn2].
        exists (n1 `max` n2)%nat.
        assert (Hv' : Cell_GetValue (n1 `max` n2) pos s2 = (s3, Ret v)).
        { eapply (Cell_GetValue_fuel_le n1); [lia|done..]. }
        rewrite (bind_Ret _ _ _ _ _
          (eq_trans (CellImpl_resolve _ _ _ _ _ Hvalid (mk_is_Some _ _ Hc) Hv') 
                    (f_equal (pair s3) Hres))).
        destruct (run_Execute (CellImpl (Cell_GetValue n2)) (k d) s3)
          as [s4 r4] eqn:Hrun.
        rewrite (run_Execute_fuel_le n2 (n1 `max` n2) (k d) ltac:(lia) _ _ _ Hrun Hn2).
        exact Hn2.
      * exists n1.
        rewrite (bind_Throw _ _ _ _ _
          (eq_trans (CellImpl_resolve _ _ _ _ _ Hvalid (mk_is_Some _ _ Hc) Hv) 
                    (f_equal (pair s3) Hres))). done.
      * by destruct v as [[|]| |]; simpl in Hres;
          repeat (case_match; try done).
    + exists n1. unfold CellImpl at 1. rewrite Hvalid. simpl.
      unfold bind at 1. unfold bind at 1. rewrite GetCell_eq, Hc.
      by rewrite (bind_Throw _ _ _ _ _ Hv).
Qed.

Lemma Cell_GetValue_ends this s :
  (forall ast, asks_within (GetCells ast) (Execute ast)) ->
  sn (ref_step s) this ->
  forall s2, same_but_caches s s2 ->
    exists n, (Cell_GetValue n this s2).2 <> OutOfFuel.
Proof.
  intros Hasks. induction 1 as [this _ IH]. intros s2 Hs2.
  destruct (impl_at s2 this) as [|t|ast [fv|]] eqn:Himpl.
  - exists 1%nat. simpl. by rewrite bind_get_sheet, Himpl.
  - exists 1%nat. simpl. rewrite bind_get_sheet, Himpl. by destruct t.
  - exists 1%nat. simpl. by rewrite bind_get_sheet, Himpl.
  - destruct (run_Execute_ends (GetCells ast) s (Execute ast) (Hasks ast)) with (s2 := s2)
      as [n Hn]; [|done|].
    { intros y Hy Hvalid. apply IH. unfold flip, ref_step.
      rewrite <- (same_but_caches_refs s s2 this Hs2).
      unfold Cell_GetReferencedCells. rewrite Himpl. simpl.
      apply Formula_GetReferencedCells_member. by split. }
    exists (S n). simpl. rewrite bind_get_sheet, Himpl.
    unfold Formula_Evaluate, catch_FormulaError.
    unfold bind at 1. unfold bind at 1. unfold bind at 1.
    destruct (run_Execute (CellImpl (Cell_GetValue n)) (Execute ast) s2)
      as [s3 [d|e|]]; [done| |done].
    by destruct e.
Qed.

(** X16: the read of a value comes to an end on a sheet without cycles.
    Where the run of every expression asks for positions of its own list
    only, no text cell holds the empty string, and every chain of references
    from the cell is finite, [GetValue] returns a value, the same one for
    every call depth from some depth on. *)
Theorem Cell_GetValue_returns this s :
  (forall ast, asks_within (GetCells ast) (Execute ast)) ->
  no_empty_text s ->
  sn (ref_step s) this ->
  exists n s' v, forall fuel, (n <= fuel)%nat ->
    Cell_GetValue fuel this s = (s', Ret v).
Proof.
  intros Hasks HI Hsn.
  destruct (Cell_GetValue_ends this s Hasks Hsn s) as [n Hn]; [by intros q|].
  destruct (Cell_GetValue n this s) as [s' [v|e|]] eqn:Hv.
  - exists n, s', v. intros fuel Hle.
    by eapply (Cell_GetValue_fuel_le n fuel).
  - by destruct (Cell_GetValue_no_throw n this s s' e HI).
  - done.
Qed.

End More_evaluation.

(** ** Checks that compute *)

Section More_checks.
Context `{Collab : Collaborators}.

Lemma ref_depth_all_sn n s : ref_depth_all n s = true -> forall p, sn (ref_step s) p.
Proof.
  unfold ref_depth_all. intros Hall p.
  destruct (s !! p) as [c|] eqn:Hc.
  - apply (ref_depth_sn n). rewrite forallb_forall in Hall.
    apply (Hall (p, c)). apply list_elem_of_In. by apply elem_of_map_to_list.
  - constructor. intros y Hy. unfold flip, ref_step in Hy.
    rewrite refs_of_absent in Hy by done. by apply elem_of_nil in Hy.
Qed.

Lemma Position_le_antisymm : AntiSymm eq Position_le.
Proof.
  intros [r1 c1] [r2 c2]. unfold Position_le. simpl. intros H1 H2.
  f_equal; lia.
Qed.

End More_checks.

(** * More runs on the sample collaborator *)

Module More_traces.
Import Sample.
Import Traces.

(** [Formula_GetReferencedCells_sorted_NoDup] on the sorted raw list A1, A1,
    B1. *)
Lemma Formula_GetReferencedCells_sorted_NoDup_witness :
  NoDup (Formula_GetReferencedCells ([A1; A1; B1] : @FormulaAST collab)).
Proof.
  apply (Formula_GetReferencedCells_sorted_NoDup Position_le).
  - apply Position_le_antisymm.
  - change (StronglySorted Position_le [A1; A1; B1]).
    repeat constructor; unfold Position_le; simpl; lia.
Defined.

(** [Cell_Set_empty] on a run: the cell A1, which holds the text 12, is set
    to the empty text. *)
Lemma Cell_Set_empty_witness :
  exists n s',
    (forall fuel, (n <= fuel)%nat -> Cell_Set fuel A1 "" sheet_number = (s', Ret tt)) ∧
    impl_at s' A1 = EmptyImpl ∧
    Cell_GetText s' A1 = "" ∧
    (forall fuel, Cell_GetValue (S fuel) A1 s' = (s', Ret (VString ""))) ∧
    Cell_GetReferencedCells s' A1 = [] ∧
    referenced_at s' A1 = ∅ ∧
    Cell_GetCache s' A1 = None.
Proof.
  apply (Cell_Set_empty A1 sheet_number).
  - by_decide.
  - apply (walk_depth_sn 1). by_compute.
Defined.

(** [Cell_Set_formula] on a run: the cell A1 is set to "=B1+C1". *)
Lemma Cell_Set_formula_witness :
  exists ast : @FormulaAST collab,
    ParseFormulaAST "B1+C1" = Some ast ∧
    impl_at (Cell_Set 5 A1 "=B1+C1" sheet_A1).1 A1 = FormulaImpl ast None ∧
    Cell_GetText (Cell_Set 5 A1 "=B1+C1" sheet_A1).1 A1
      = String FORMULA_SIGN (PrintFormula ast) ∧
    Cell_GetReferencedCells (Cell_Set 5 A1 "=B1+C1" sheet_A1).1 A1
      = Formula_GetReferencedCells ast ∧
    (A1 ∉ Formula_GetReferencedCells ast) ∧
    Cell_GetCache (Cell_Set 5 A1 "=B1+C1" sheet_A1).1 A1 = None.
Proof.
  apply (Cell_Set_formula 5 A1 "="%char "B1+C1" sheet_A1).
  - by_decide.
  - reflexivity.
  - by_compute.
Defined.

(** [Cell_Set_edges] on the same run: B1 and C1 are made, empty, and list A1
    as their dependent. *)
Lemma Cell_Set_edges_witness :
  referenced_at (Cell_Set 5 A1 "=B1+C1" sheet_A1).1 A1 = {[B1; C1]} ∧
  is_Some ((Cell_Set 5 A1 "=B1+C1" sheet_A1).1 !! C1) ∧
  A1 ∈ dependent_at (Cell_Set 5 A1 "=B1+C1" sheet_A1).1 C1 ∧
  impl_at (Cell_Set 5 A1 "=B1+C1" sheet_A1).1 C1 = EmptyImpl.
Proof.
  assert (Hset : Cell_Set 5 A1 "=B1+C1" sheet_A1
                 = ((Cell_Set 5 A1 "=B1+C1" sheet_A1).1, Ret tt)) by by_compute.
  assert (Hrefs : Cell_GetReferencedCells (Cell_Set 5 A1 "=B1+C1" sheet_A1).1 A1
                  = [B1; C1]) by by_compute.
  revert Hset Hrefs. generalize (Cell_Set 5 A1 "=B1+C1" sheet_A1).1. intros s' Hset Hrefs.
  destruct (Cell_Set_edges 5 A1 "=B1+C1" sheet_A1 s') as (Hr & Hsome & Hdep & Hnew).
  - by_decide.
  - exact Hset.
  - rewrite Hrefs in *.
    assert (HC1 : C1 ∈ [B1; C1]) by (apply list_elem_of_further, list_elem_of_here).
    split; [rewrite Hr; set_solver|].
    split; [apply Hsome; by right|].
    split; [apply Hdep; by right|].
    apply Hnew; [by_compute | exact HC1].
Defined.

(** [Cell_Set_keeps_acyclic] on a run: B1 reads A1, and C1 is made to read
    B1. *)
Lemma Cell_Set_keeps_acyclic_witness :
  sn (ref_step ((SetCell 5 C1 "=B1") sheet_B1_reads_A1).1) C1.
Proof.
  apply (Cell_Set_keeps_acyclic 5 C1 "=B1" (Sheet_SetCell_empty C1 sheet_B1_reads_A1).1).
  - by_decide.
  - apply (ref_depth_all_sn 3). by_compute.
  - by_compute.
Defined.

(** [Cell_Clear_effect] on the chain: A1 is cleared, B1 keeps its edge to
    A1 and its memo. *)
Lemma Cell_Clear_effect_witness :
  Cell_GetText (Cell_Clear A1 sheet_chain).1 A1 = "" ∧
  dependent_at (Cell_Clear A1 sheet_chain).1 A1 = dependent_at sheet_chain A1 ∧
  impl_at (Cell_Clear A1 sheet_chain).1 B1 = impl_at sheet_chain B1 ∧
  sn (ref_step (Cell_Clear A1 sheet_chain).1) C1.
Proof.
  destruct (Cell_Clear_effect A1 sheet_chain) as (_ & Htext & _ & _ & Hedges & Hother & Hsn).
  - by_decide.
  - apply (ref_depth_all_sn 4). by_compute.
  - split; [exact Htext|]. split; [apply (Hedges A1)|].
    split; [by apply Hother | apply Hsn].
Defined.

(** [Cell_GetValue_frame] on a run: B1, which reads A1, is read. *)
Lemma Cell_GetValue_frame_witness :
  Cell_GetText (Cell_GetValue 5 B1 sheet_B1_reads_A1).1 B1
    = Cell_GetText sheet_B1_reads_A1 B1 ∧
  dependent_at (Cell_GetValue 5 B1 sheet_B1_reads_A1).1 A1
    = dependent_at sheet_B1_reads_A1 A1.
Proof.
  assert (Hv : Cell_GetValue 5 B1 sheet_B1_reads_A1
               = ((Cell_GetValue 5 B1 sheet_B1_reads_A1).1, Ret (VDouble 0)))
    by by_compute.
  split.
  - apply (Cell_GetValue_frame 5 B1 _ _ _ Hv B1).
  - apply (Cell_GetValue_frame 5 B1 _ _ _ Hv A1).
Defined.

(** [Cell_GetValue_memoizes] on the same run. *)
Lemma Cell_GetValue_memoizes_witness :
  Cell_GetValue 1 B1 (Cell_GetValue 5 B1 sheet_B1_reads_A1).1
    = ((Cell_GetValue 5 B1 sheet_B1_reads_A1).1, Ret (VDouble 0)) ∧
  exists fv, impl_at (Cell_GetValue 5 B1 sheet_B1_reads_A1).1 B1
             = @FormulaImpl collab [A1] (Some fv) ∧
             Value_of_FValue fv = VDouble 0.
Proof.
  assert (Hv : Cell_GetValue 5 B1 sheet_B1_reads_A1
               = ((Cell_GetValue 5 B1 sheet_B1_reads_A1).1, Ret (VDouble 0)))
    by by_compute.
  destruct (Cell_GetValue_memoizes 5 B1 _ _ _ Hv) as [Hagain Hmemo].
  split; [exact Hagain|].
  apply (Hmemo [A1] None). by_compute.
Defined.

(** [Cell_GetValue_never_throws] on a run: C1 adds the text abc to a
    number. *)
Lemma Cell_GetValue_never_throws_witness :
  (exists s' v, Cell_GetValue 5 C1 sheet_abort = (s', Ret v)) ∨
  (exists s', Cell_GetValue 5 C1 sheet_abort = (s', OutOfFuel)).
Proof.
  apply (Cell_GetValue_never_throws 5 C1 sheet_abort).
  apply no_empty_textb_spec. by_compute.
Defined.

(** [DestroyCache_effect] on the chain, from A1: the memo of B1 is gone. *)
Lemma DestroyCache_effect_witness :
  Cell_GetCache (DestroyCache 5 A1 sheet_chain).1 B1 = None ∧
  DestroyCache 1 A1 (DestroyCache 5 A1 sheet_chain).1
    = ((DestroyCache 5 A1 sheet_chain).1, Ret tt).
Proof.
  assert (Hdc : DestroyCache 5 A1 sheet_chain
                = ((DestroyCache 5 A1 sheet_chain).1, Ret tt)) by by_compute.
  destruct (DestroyCache_effect 5 A1 _ _ Hdc) as (_ & _ & Hdeps & Hagain).
  split; [|apply Hagain].
  apply Hdeps. by_decide.
Defined.

(** The sum of the sample asks for the cells of its list, one after the
    other. *)
Lemma exec_sum_asks (l0 l : list Position) acc :
  (forall p, p ∈ l -> p ∈ l0) -> asks_within l0 (exec_sum acc l).
Proof.
  revert acc. induction l as [|p l IH]; intros acc Hl; simpl; [done|].
  split; [apply Hl, list_elem_of_here|].
  intros v. apply IH. intros q Hq. by apply Hl, list_elem_of_further.
Qed.

(** [Cell_GetValue_returns] on a run: C1 reads B1, which reads the empty
    A1, and nothing was read before. *)
Lemma Cell_GetValue_returns_witness :
  exists n s' v, forall fuel, (n <= fuel)%nat ->
    Cell_GetValue fuel C1 (SetCell 5 C1 "=B1" sheet_B1_reads_A1).1 = (s', Ret v).
Proof.
  apply (Cell_GetValue_returns C1 (SetCell 5 C1 "=B1" sheet_B1_reads_A1).1).
  - intros ast. by apply (exec_sum_asks ast ast 0).
  - apply no_empty_textb_spec. by_compute.
  - apply (ref_depth_sn 3). by_compute.
Defined.

End More_traces.
